(** * Rooting and tracing protocol of examples/tracing.cpp

    A shallow embedding of the embedder-side code of [examples/tracing.cpp]
    (SafeBox, the GCPolicy for std::shared_ptr, the global persistent roots and
    CustomObject with its trace and finalize hooks), together with a model of
    the engine services that code calls (JS::TraceEdge, reserved slots, the
    stack root list, the persistent root set and a forced collection). *)

From Stdlib Require Import ZArith String List Lia.
From stdpp Require Import base option list gmap sets strings.

Local Open Scope string_scope.
Local Open Scope list_scope.
Local Open Scope stdpp_scope.

#[local] Set Warnings "-clear-no-such-hyp".

(** ** Collector-managed values and native pointers *)

(** Address of a GC thing (a cell of the collector's heap). *)
Abbreviation Cell := positive (only parsing).

(** A native pointer; [nullptr] is address zero. *)
Abbreviation Ptr := N (only parsing).
Definition nullptr : Ptr := 0%N.

(** [if (p)] on a pointer. *)
Definition nonNull (p : Ptr) : bool := negb (p =? nullptr)%N.

(** JS::Value, restricted to the payloads the example stores: the default
    (undefined) value, a number, a reference to an object, and an opaque
    native pointer made with JS::PrivateValue. *)
Inductive Value :=
| UndefinedValue
| Int32Value (i : Z)
| ObjectValue (c : Cell)
| PrivateValue (p : Ptr).

#[global] Instance Value_eq_dec : EqDecision Value.
Proof. solve_decision. Defined.

(** JSObject*: a possibly null pointer to a cell. *)
Definition JSObjectPtr := option Cell.

(** The kinds of edge JS::TraceEdge is instantiated at: each one says which
    cell, if any, the slot currently refers to. *)
Class GCThingEdge (T : Type) := referentOf : T → option Cell.

#[global] Instance Value_edge : GCThingEdge Value :=
  λ v, match v with ObjectValue c => Some c | _ => None end.

#[global] Instance JSObjectPtr_edge : GCThingEdge JSObjectPtr := λ o, o.

(** ** The tracer *)

(** Where a traced slot lives. *)
Inductive SlotAddr :=
| StashedOf (box : Ptr)               (* &box->stashed *)
| ElemOf (box : Ptr) (i : nat)        (* &box->container[i] *)
| SlotOf (c : Cell) (i : nat)         (* reserved slot i of the object at c *)
| RootOf (root : Ptr).                (* the storage of a root *)

#[global] Instance SlotAddr_eq_dec : EqDecision SlotAddr.
Proof. solve_decision. Defined.

(** Modelled from the spec: the Tracer (JSTracer), which belongs to the
    engine and is not in this repository: the "visitor abstraction invoked on
    every reachable edge".  The marking state of a pass is the set of cells
    found so far; [visits] is a ghost log of the calls of the trace entry
    point, in order. *)
Record JSTracer := mkTracer {
  marked : gset Cell;
  visits : list (SlotAddr * string)
}.

Definition newTracer : JSTracer := mkTracer ∅ [].

(** Modelled from the spec: what visiting an edge does to the marking state:
    the cell the slot refers to, if any, is marked. *)
Definition markReferent (o : option Cell) (m : gset Cell) : gset Cell :=
  match o with
  | Some c => {[ c ]} ∪ m
  | None => m
  end.

(** Modelled from the spec: the generic trace entry point (JS::TraceEdge),
    [traceEdge(Tracer, slotAddress, debugLabel)], "the single primitive all
    higher-level trace methods funnel through". *)
Definition TraceEdge `{GCThingEdge T}
    (trc : JSTracer) (addr : SlotAddr) (slot : T) (name : string) : JSTracer :=
  {| marked := markReferent (referentOf slot) (marked trc);
     visits := visits trc ++ [(addr, name)] |}.

(** ** SafeBox *)

(** JS::Heap<T> holds a T; its barriers have no effect on what a trace pass
    reads. *)
Definition Heap (T : Type) := T.

Record SafeBox := mkSafeBox {
  stashed : Heap Value;
  container : list (Heap Value)
}.

(** The range-for loop of SafeBox::trace, from element [i] on. *)
Fixpoint traceContainer (this : Ptr) (i : nat) (elems : list (Heap Value))
    (trc : JSTracer) : JSTracer :=
  match elems with
  | [] => trc
  | elem :: rest =>
      traceContainer this (S i) rest
        (TraceEdge trc (ElemOf this i) elem "container value")
  end.

(** SafeBox::trace, on the box stored at address [this]. *)
Definition SafeBox_trace (this : Ptr) (box : SafeBox) (trc : JSTracer) : JSTracer :=
  let trc := TraceEdge trc (StashedOf this) (stashed box) "stashed value" in
  traceContainer this 0 (container box) trc.

(** The edges of a box, in the order SafeBox::trace reaches them. *)
Definition containerEdges (this : Ptr) (i n : nat) : list (SlotAddr * string) :=
  (λ k, (ElemOf this k, "container value")) <$> seq i n.

Definition boxEdges (this : Ptr) (box : SafeBox) : list (SlotAddr * string) :=
  (StashedOf this, "stashed value") :: containerEdges this 0 (length (container box)).

(** The cells the slots of a box refer to. *)
Definition valuesReferents (vs : list Value) : gset Cell :=
  foldr (λ v m, markReferent (referentOf v) m) ∅ vs.

Definition boxReferents (box : SafeBox) : gset Cell :=
  valuesReferents (stashed box :: container box).

(** ** Tracing policies *)

(** JS::GCPolicy<T>: how a T stored at address [tp] is traced, whether it is
    pending a sweep, and whether it is a valid value. *)
Class GCPolicy (T : Type) := {
  trace : JSTracer → Ptr → T → string → JSTracer;
  needsSweep : T → bool;
  isValid : T → bool
}.

(** A smart pointer is seen through what it points to: [None] when [get()]
    is null, [Some (target, t)] when [get()] is the address [target], at
    which the object [t] is stored. *)
Inductive shared_ptr (T : Type) := SharedPtr (pointee : option (Ptr * T)).
Inductive UniquePtr (T : Type) := MakeUniquePtr (pointee : option (Ptr * T)).
Arguments SharedPtr {T} pointee.
Arguments MakeUniquePtr {T} pointee.

Definition shared_get {T} (tp : shared_ptr T) : Ptr :=
  match tp with
  | SharedPtr (Some (target, _)) => target
  | SharedPtr None => nullptr
  end.

(** template <typename T> struct JS::GCPolicy<std::shared_ptr<T>> *)
#[global] Instance GCPolicy_shared_ptr `{GCPolicy T} : GCPolicy (shared_ptr T) := {
  trace trc _ tp name :=
    match tp with
    | SharedPtr (Some (target, t)) => trace trc target t name
    | SharedPtr None => trc
    end;
  needsSweep tp :=
    match tp with
    | SharedPtr (Some (_, t)) => needsSweep t
    | SharedPtr None => false
    end;
  isValid tp :=
    match tp with
    | SharedPtr (Some (_, t)) => isValid t
    | SharedPtr None => true
    end
}.

(** Modelled from the spec: the engine's policy for a struct with a trace
    method, which is not in this repository: the struct is traced by calling
    its method; SafeBox holds strong references only, so it is never
    sweep-pending and always valid. *)
#[global] Instance GCPolicy_SafeBox : GCPolicy SafeBox := {
  trace trc tp box _ := SafeBox_trace tp box trc;
  needsSweep _ := false;
  isValid _ := true
}.

(** Modelled from the spec: the engine's policy for js::UniquePtr, which is
    not in this repository: "a pass-through policy for a wrapper type", like
    the one for the shared pointer above. *)
#[global] Instance GCPolicy_UniquePtr `{GCPolicy T} : GCPolicy (UniquePtr T) := {
  trace trc _ tp name :=
    match tp with
    | MakeUniquePtr (Some (target, t)) => trace trc target t name
    | MakeUniquePtr None => trc
    end;
  needsSweep tp :=
    match tp with
    | MakeUniquePtr (Some (_, t)) => needsSweep t
    | MakeUniquePtr None => false
    end;
  isValid tp :=
    match tp with
    | MakeUniquePtr (Some (_, t)) => isValid t
    | MakeUniquePtr None => true
    end
}.

(** Modelled from the spec: the engine's policy for a JSObject*, which is not
    in this repository: the pointer is one edge, skipped when null. *)
#[global] Instance GCPolicy_JSObjectPtr : GCPolicy JSObjectPtr := {
  trace trc tp o name :=
    match o with
    | Some _ => TraceEdge trc (RootOf tp) o name
    | None => trc
    end;
  needsSweep _ := false;
  isValid _ := true
}.

(** ** Managed objects and their reserved slots *)

(** The classes of the objects the example creates: a plain object (the
    global) and CustomObject::clasp. *)
Inductive JSClass := PlainClass | CustomClass.

#[global] Instance JSClass_eq_dec : EqDecision JSClass.
Proof. solve_decision. Defined.

Record JSObject := mkObject {
  clasp : JSClass;
  reservedSlots : list Value
}.

(** The embedder's native heap: the SafeBox allocated at each address. *)
Abbreviation NativeHeap := (gmap N SafeBox) (only parsing).

(** Modelled from the spec: reserved-slot storage, which belongs to the
    engine: "a fixed-size indexed array per managed object instance, storing
    either a tagged managed value or an opaque native pointer".  An index out
    of range has no defined result. *)
Definition GetReservedSlot (obj : JSObject) (slot : nat) : option Value :=
  reservedSlots obj !! slot.

(** Modelled from the spec: a store to a reserved slot. *)
Definition JS_SetReservedSlot (obj : JSObject) (slot : nat) (v : Value) : JSObject :=
  {| clasp := clasp obj; reservedSlots := <[slot := v]> (reservedSlots obj) |}.

(** Modelled from the spec: the native pointer in a reserved slot, null for
    a slot that was never set; reading a pointer from a slot that holds a
    managed value has no defined result. *)
Definition GetMaybePtrFromReservedSlot (obj : JSObject) (slot : nat) : option Ptr :=
  v ← GetReservedSlot obj slot;
  match v with
  | UndefinedValue => Some nullptr
  | PrivateValue p => Some p
  | _ => None
  end.

(** [delete p]: nothing for a null pointer, releases an allocated box, and is
    undefined on anything else. *)
Definition delete_ (p : Ptr) (nh : NativeHeap) : option NativeHeap :=
  if nonNull p then _ ← nh !! p; Some (delete p nh) else Some nh.

(** ** CustomObject *)

Module CustomObject.

(** enum Slots { OwnedBoxSlot, UnownedBoxSlot, SlotCount } *)
Definition OwnedBoxSlot : nat := 0.
Definition UnownedBoxSlot : nat := 1.
Definition SlotCount : nat := 2.

Definition ownedBox (obj : JSObject) : option Ptr :=
  GetMaybePtrFromReservedSlot obj OwnedBoxSlot.

Definition unownedBox (obj : JSObject) : option Ptr :=
  GetMaybePtrFromReservedSlot obj UnownedBoxSlot.

(** The object JS_NewObject(cx, &clasp) returns, and what it is once create
    has filled both reserved slots. *)
Definition newObject : JSObject :=
  {| clasp := CustomClass; reservedSlots := replicate SlotCount UndefinedValue |}.

Definition initSlots (box1 box2 : Ptr) : JSObject :=
  JS_SetReservedSlot
    (JS_SetReservedSlot newObject OwnedBoxSlot (PrivateValue box1))
    UnownedBoxSlot (PrivateValue box2).

(** [b->trace(trc)] under [if (b)]. *)
Definition traceBox (nh : NativeHeap) (b : Ptr) (trc : JSTracer) : option JSTracer :=
  if nonNull b then box ← nh !! b; Some (SafeBox_trace b box trc) else Some trc.

Definition finalize (nh : NativeHeap) (obj : JSObject) : option NativeHeap :=
  b ← ownedBox obj;
  delete_ b nh.

Definition trace (nh : NativeHeap) (obj : JSObject) (trc : JSTracer)
    : option JSTracer :=
  b ← ownedBox obj;
  trc ← traceBox nh b trc;
  b ← unownedBox obj;
  traceBox nh b trc.

End CustomObject.

(** The edges and referents reached through a box pointer: none through a
    null pointer. *)
Definition edgesVia (nh : NativeHeap) (p : Ptr) : list (SlotAddr * string) :=
  if nonNull p then from_option (boxEdges p) [] (nh !! p) else [].

Definition referentsVia (nh : NativeHeap) (p : Ptr) : gset Cell :=
  if nonNull p then from_option boxReferents ∅ (nh !! p) else ∅.

(** A box pointer the hooks can use: null, or the address of a live box. *)
Definition usable (nh : NativeHeap) (p : Ptr) : Prop :=
  p = nullptr ∨ is_Some (nh !! p).


(** ** Outcomes of engine operations *)

(** The protocol violations the engine detects, and the outcome of an
    operation that may detect one. *)
Inductive Violation :=
| LifoViolation          (* a stack root destroyed out of order *)
| NotRunning             (* the collector used before startup or after shutdown *)
| RootAtShutdown         (* a persistent root still registered at shutdown *)
| UndefinedBehaviour.    (* a hook read or released an invalid pointer *)

Inductive Outcome (A : Type) :=
| Done (a : A)
| Abort (v : Violation).
Arguments Done {A} a.
Arguments Abort {A} v.

#[global] Instance Outcome_ret : MRet Outcome := λ A a, Done a.
#[global] Instance Outcome_bind : MBind Outcome := λ A B f m,
  match m with
  | Done a => f a
  | Abort v => Abort v
  end.

Definition orUndefined {A} (o : option A) : Outcome A :=
  match o with
  | Some a => Done a
  | None => Abort UndefinedBehaviour
  end.

(** ** Roots *)

(** What the example roots: a JSObject*, a SafeBox held in place, and a
    SafeBox behind js::UniquePtr or std::shared_ptr. *)
Inductive Rootable :=
| RootObject (o : JSObjectPtr)
| RootSafeBox (b : SafeBox)
| RootUniquePtr (u : UniquePtr SafeBox)
| RootSharedPtr (s : shared_ptr SafeBox).

(** The trace of a root stored at [addr]: the policy of the rooted type. *)
Definition traceRootable (trc : JSTracer) (addr : Ptr) (r : Rootable) : JSTracer :=
  match r with
  | RootObject o => trace trc addr o "root"
  | RootSafeBox b => trace trc addr b "root"
  | RootUniquePtr u => trace trc addr u "root"
  | RootSharedPtr s => trace trc addr s "root"
  end.

(** The cells a root refers to. *)
Definition pointeeReferents (pointee : option (Ptr * SafeBox)) : gset Cell :=
  match pointee with
  | Some (_, b) => boxReferents b
  | None => ∅
  end.

Definition rootableReferents (r : Rootable) : gset Cell :=
  match r with
  | RootObject o => markReferent o ∅
  | RootSafeBox b => boxReferents b
  | RootUniquePtr (MakeUniquePtr pointee) => pointeeReferents pointee
  | RootSharedPtr (SharedPtr pointee) => pointeeReferents pointee
  end.

(** Modelled from the spec: the StackRootRegistry, which belongs to the
    engine and is not in this repository: a "per-execution-context intrusive
    LIFO list of active stack roots", each node "exposing trace(Tracer)".  A
    node is known by the address of its root; the head comes first. *)
Abbreviation StackRootRegistry := (list (N * Rootable)) (only parsing).

(** Modelled from the spec: "push prepends in O(1) at RootedSlot
    construction". *)
Definition push (node : Ptr * Rootable) (reg : StackRootRegistry) : StackRootRegistry :=
  node :: reg.

(** Modelled from the spec: "pop removes the head at RootedSlot destruction;
    popping a non-head node is a protocol violation", which the registry
    detects. *)
Definition pop (addr : Ptr) (reg : StackRootRegistry) : Outcome StackRootRegistry :=
  match reg with
  | (head, _) :: rest =>
      if decide (head = addr) then Done rest else Abort LifoViolation
  | [] => Abort LifoViolation
  end.

(** Modelled from the spec: "traceAll(Tracer) walks head→tail calling
    trace". *)
Definition traceAll (reg : StackRootRegistry) (trc : JSTracer) : JSTracer :=
  foldl (λ trc node, traceRootable trc node.1 node.2) trc reg.

(** Construction of the roots [nodes] in order, and destruction of the roots
    at [addrs] in order. *)
Definition constructAll (nodes : list (Ptr * Rootable)) (reg : StackRootRegistry)
    : StackRootRegistry :=
  foldl (λ reg node, push node reg) reg nodes.

Fixpoint destructAll (addrs : list Ptr) (reg : StackRootRegistry)
    : Outcome StackRootRegistry :=
  match addrs with
  | [] => Done reg
  | addr :: rest => reg ← pop addr reg; destructAll rest reg
  end.

(** The root a Handle or a MutableHandle borrows: the node at [addr]. *)
Fixpoint rootAt (addr : Ptr) (reg : StackRootRegistry) : option Rootable :=
  match reg with
  | [] => None
  | (head, r) :: rest => if decide (head = addr) then Some r else rootAt addr rest
  end.

(** ** The runtime *)

Inductive Phase := NotStarted | Running | ShutDown.

#[global] Instance Phase_eq_dec : EqDecision Phase.
Proof. solve_decision. Defined.

(** What the collector is told, in order: its startup and shutdown, and the
    registration and deregistration of each persistent root. *)
Inductive Event :=
| Startup
| Registered (root : Ptr)
| Deregistered (root : Ptr)
| Shutdown.

(** What the engine and the embedder share: the collector's heap, the native
    heap with its allocation pointer, the stack root registry, the persistent
    root set (each root under its own address) and, as ghost state, the cells
    whose finalize hook has run and the events seen so far, both in order. *)
Record Runtime := mkRuntime {
  phase : Phase;
  gcHeap : gmap positive JSObject;
  nativeHeap : gmap N SafeBox;
  nextPtr : N;
  stackRoots : list (N * Rootable);
  persistentRoots : gmap N Rootable;
  finalized : list Cell;
  events : list Event
}.

(** The process before the engine is started: nothing allocated, no root
    registered; the native allocator hands out addresses from 256 on, above
    the static and stack storage of the example. *)
Definition initialRuntime : Runtime :=
  {| phase := NotStarted; gcHeap := ∅; nativeHeap := ∅; nextPtr := 256;
     stackRoots := []; persistentRoots := ∅; finalized := []; events := [] |}.

Definition withPhase (ph : Phase) (rt : Runtime) : Runtime :=
  {| phase := ph; gcHeap := gcHeap rt; nativeHeap := nativeHeap rt;
     nextPtr := nextPtr rt; stackRoots := stackRoots rt;
     persistentRoots := persistentRoots rt; finalized := finalized rt;
     events := events rt |}.

Definition withGcHeap (h : gmap positive JSObject) (rt : Runtime) : Runtime :=
  {| phase := phase rt; gcHeap := h; nativeHeap := nativeHeap rt;
     nextPtr := nextPtr rt; stackRoots := stackRoots rt;
     persistentRoots := persistentRoots rt; finalized := finalized rt;
     events := events rt |}.

Definition withNativeHeap (nh : NativeHeap) (rt : Runtime) : Runtime :=
  {| phase := phase rt; gcHeap := gcHeap rt; nativeHeap := nh;
     nextPtr := nextPtr rt; stackRoots := stackRoots rt;
     persistentRoots := persistentRoots rt; finalized := finalized rt;
     events := events rt |}.

Definition withNextPtr (p : Ptr) (rt : Runtime) : Runtime :=
  {| phase := phase rt; gcHeap := gcHeap rt; nativeHeap := nativeHeap rt;
     nextPtr := p; stackRoots := stackRoots rt;
     persistentRoots := persistentRoots rt; finalized := finalized rt;
     events := events rt |}.

Definition withStackRoots (reg : StackRootRegistry) (rt : Runtime) : Runtime :=
  {| phase := phase rt; gcHeap := gcHeap rt; nativeHeap := nativeHeap rt;
     nextPtr := nextPtr rt; stackRoots := reg;
     persistentRoots := persistentRoots rt; finalized := finalized rt;
     events := events rt |}.

Definition withPersistentRoots (roots : gmap N Rootable) (rt : Runtime) : Runtime :=
  {| phase := phase rt; gcHeap := gcHeap rt; nativeHeap := nativeHeap rt;
     nextPtr := nextPtr rt; stackRoots := stackRoots rt;
     persistentRoots := roots; finalized := finalized rt;
     events := events rt |}.

Definition logEvent (e : Event) (rt : Runtime) : Runtime :=
  {| phase := phase rt; gcHeap := gcHeap rt; nativeHeap := nativeHeap rt;
     nextPtr := nextPtr rt; stackRoots := stackRoots rt;
     persistentRoots := persistentRoots rt; finalized := finalized rt;
     events := events rt ++ [e] |}.

(** ** Tracing managed objects *)

(** Modelled from the spec: the reserved slots of an object are traced by
    the engine itself (they "are automatically traced by the GC"). *)
Fixpoint traceSlots (c : Cell) (i : nat) (slots : list Value) (trc : JSTracer)
    : JSTracer :=
  match slots with
  | [] => trc
  | v :: rest =>
      traceSlots c (S i) rest (TraceEdge trc (SlotOf c i) v "reserved slot")
  end.

(** Modelled from the spec: the dispatch through the ClassDescriptor table,
    which belongs to the engine: "a trace hook (Tracer, object) invoked on
    every pass" for a class that has one. *)
Definition traceObject (nh : NativeHeap) (c : Cell) (obj : JSObject)
    (trc : JSTracer) : option JSTracer :=
  let trc := traceSlots c 0 (reservedSlots obj) trc in
  match clasp obj with
  | CustomClass => CustomObject.trace nh obj trc
  | PlainClass => Some trc
  end.

(** Modelled from the spec: the same dispatch for "an optional finalize hook
    (context, object)". *)
Definition finalizeObject (nh : NativeHeap) (obj : JSObject) : option NativeHeap :=
  match clasp obj with
  | CustomClass => CustomObject.finalize nh obj
  | PlainClass => Some nh
  end.

(** The cells an object refers to: through its reserved slots and, for a
    CustomObject, through the boxes its private data points to. *)
Definition referentsViaSlot (nh : NativeHeap) (p : option Ptr) : gset Cell :=
  from_option (referentsVia nh) ∅ p.

Definition objectReferents (nh : NativeHeap) (obj : JSObject) : gset Cell :=
  valuesReferents (reservedSlots obj)
  ∪ match clasp obj with
    | CustomClass =>
        referentsViaSlot nh (CustomObject.ownedBox obj)
        ∪ referentsViaSlot nh (CustomObject.unownedBox obj)
    | PlainClass => ∅
    end.

(** ** A forced collection *)

(** The collector behind JS_GC belongs to the engine and is not in this
    repository.  By the spec a pass "walks StackRootRegistry + PersistentRoot
    set + all class trace hooks via the Tracer to find every reachable edge
    ... and reclaims the rest, invoking finalize hooks for unreachable
    objects". *)

(** Modelled from the spec: the trace of the PersistentRoot set. *)
Definition tracePersistent (roots : gmap N Rootable) (trc : JSTracer) : JSTracer :=
  traceAll (map_to_list roots) trc.

(** Modelled from the spec: the start of a marking pass, the trace of all
    roots. *)
Definition traceRoots (rt : Runtime) (trc : JSTracer) : JSTracer :=
  tracePersistent (persistentRoots rt) (traceAll (stackRoots rt) trc).

(** Modelled from the spec: the trace of the objects at [cells]; a cell that
    holds no object has nothing to trace. *)
Fixpoint traceCells (h : gmap positive JSObject) (nh : NativeHeap)
    (cells : list Cell) (trc : JSTracer) : option JSTracer :=
  match cells with
  | [] => Some trc
  | c :: rest =>
      trc ← match h !! c with
            | Some obj => traceObject nh c obj trc
            | None => Some trc
            end;
      traceCells h nh rest trc
  end.

(** Modelled from the spec: one round of marking traces every object marked
    so far. *)
Definition markStep (h : gmap positive JSObject) (nh : NativeHeap)
    (trc : JSTracer) : option JSTracer :=
  traceCells h nh (elements (marked trc)) trc.

(** Modelled from the spec: [rounds] rounds of marking. *)
Fixpoint markLoop (rounds : nat) (h : gmap positive JSObject) (nh : NativeHeap)
    (trc : JSTracer) : option JSTracer :=
  match rounds with
  | 0 => Some trc
  | S rounds => trc ← markStep h nh trc; markLoop rounds h nh trc
  end.

(** Modelled from the spec: the marking phase: the roots, then one round for
    each object of the heap, which reaches every trace path. *)
Definition mark (rt : Runtime) : option JSTracer :=
  markLoop (size (gcHeap rt)) (gcHeap rt) (nativeHeap rt) (traceRoots rt newTracer).

(** Modelled from the spec: the objects no trace path reached, in the order
    the sweep meets them. *)
Definition deadObjects (h : gmap positive JSObject) (m : gset Cell)
    : list (Cell * JSObject) :=
  filter (λ entry, entry.1 ∉ m) (map_to_list h).

(** Modelled from the spec: the finalize hooks of the dead objects, run in
    the foreground. *)
Fixpoint runFinalizers (dead : list (Cell * JSObject)) (nh : NativeHeap)
    : option NativeHeap :=
  match dead with
  | [] => Some nh
  | (_, obj) :: rest => nh ← finalizeObject nh obj; runFinalizers rest nh
  end.

(** Modelled from the spec: the sweep finalizes the unmarked objects and
    reclaims them. *)
Definition sweep (rt : Runtime) (m : gset Cell) : option Runtime :=
  nh ← runFinalizers (deadObjects (gcHeap rt) m) (nativeHeap rt);
  Some {| phase := phase rt;
          gcHeap := filter (λ entry, entry.1 ∈ m) (gcHeap rt);
          nativeHeap := nh;
          nextPtr := nextPtr rt;
          stackRoots := stackRoots rt;
          persistentRoots := persistentRoots rt;
          finalized := finalized rt ++ (deadObjects (gcHeap rt) m).*1;
          events := events rt |}.

(** Modelled from the spec: JS_GC, a full collection forced by the
    embedder. *)
Definition JS_GC (rt : Runtime) : option Runtime :=
  trc ← mark rt;
  sweep rt (marked trc).

(** [n] forced collections in a row. *)
Fixpoint collections (n : nat) (rt : Runtime) : option Runtime :=
  match n with
  | 0 => Some rt
  | S n => rt ← JS_GC rt; collections n rt
  end.

(** ** Reachability *)

(** A root of the runtime: a node of the stack registry or a member of the
    persistent set. *)
Definition isRoot (rt : Runtime) (r : Rootable) : Prop :=
  (∃ addr, (addr, r) ∈ stackRoots rt) ∨ (∃ addr, persistentRoots rt !! addr = Some r).

(** A cell is reachable when some trace path from a root leads to it. *)
Inductive reachable (rt : Runtime) : Cell → Prop :=
| reachable_root r c :
    isRoot rt r → c ∈ rootableReferents r → reachable rt c
| reachable_edge c obj d :
    reachable rt c → gcHeap rt !! c = Some obj →
    d ∈ objectReferents (nativeHeap rt) obj → reachable rt d.

(** A marking state that holds, with a cell, what the object there refers
    to: nothing is left to mark. *)
Definition closedMarking (h : gmap positive JSObject) (nh : NativeHeap)
    (m : gset Cell) : Prop :=
  ∀ c obj d, c ∈ m → h !! c = Some obj → d ∈ objectReferents nh obj → d ∈ m.

(** ** Native ownership *)

(** The box a managed object exclusively owns, if any. *)
Definition ownedPtr (obj : JSObject) : option Ptr :=
  match clasp obj with
  | CustomClass =>
      b ← CustomObject.ownedBox obj; if nonNull b then Some b else None
  | PlainClass => None
  end.

(** The boxes owned by the objects of a list of heap entries. *)
Definition ownedBy (entries : list (Cell * JSObject)) : list Ptr :=
  omap (λ entry, ownedPtr entry.2) entries.

(** The discipline the example follows for the boxes of its CustomObjects:
    both slots hold null or a live box, no box is owned by two objects, and a
    borrowed box is owned by no object (it is long-lived, like the static
    box of the example). *)
Record wellFormed (h : gmap positive JSObject) (nh : NativeHeap) : Prop := {
  wf_slots : ∀ c obj, h !! c = Some obj → clasp obj = CustomClass →
    ∃ o u, CustomObject.ownedBox obj = Some o ∧ CustomObject.unownedBox obj = Some u
           ∧ usable nh o ∧ usable nh u;
  wf_exclusive : ∀ c1 c2 obj1 obj2 p,
    h !! c1 = Some obj1 → h !! c2 = Some obj2 →
    ownedPtr obj1 = Some p → ownedPtr obj2 = Some p → c1 = c2;
  wf_borrowed : ∀ c1 c2 obj1 obj2 u,
    h !! c1 = Some obj1 → h !! c2 = Some obj2 → clasp obj1 = CustomClass →
    CustomObject.unownedBox obj1 = Some u → ownedPtr obj2 ≠ Some u
}.

(** What a collection of a runtime that follows the ownership discipline
    does, in terms of the marking state [trc] its marking phase ends with. *)
Definition collected (rt : Runtime) (trc : JSTracer) (rt' : Runtime) : Prop :=
  gcHeap rt' = filter (λ entry, entry.1 ∈ marked trc) (gcHeap rt)
  ∧ (∀ q, nativeHeap rt' !! q
          = if decide (q ∈ ownedBy (deadObjects (gcHeap rt) (marked trc)))
            then None else nativeHeap rt !! q)
  ∧ finalized rt' = finalized rt ++ (deadObjects (gcHeap rt) (marked trc)).*1
  ∧ stackRoots rt' = stackRoots rt
  ∧ persistentRoots rt' = persistentRoots rt
  ∧ phase rt' = phase rt.

(** How many times the finalize hook of the object at [c] has run. *)
Definition timesFinalized (rt : Runtime) (c : Cell) : nat :=
  count_occ Pos.eq_dec (finalized rt) c.

(** No object of the heap owns the box at [p]. *)
Definition unowned (h : gmap positive JSObject) (p : Ptr) : Prop :=
  ∀ c obj, h !! c = Some obj → ownedPtr obj ≠ Some p.

(** ** Engine entry points the example calls *)

(** Modelled from the spec: RootedSlot, whose "construct(context, initial)
    registers" and whose "destruct deregisters", on the registry above.  A
    context exists only while the engine runs. *)
Definition Rooted_construct (addr : Ptr) (initial : Rootable) (rt : Runtime)
    : Outcome Runtime :=
  if decide (phase rt = Running)
  then Done (withStackRoots (push (addr, initial) (stackRoots rt)) rt)
  else Abort NotRunning.

(** Modelled from the spec: the destruction of a RootedSlot pops its node,
    which must be the head. *)
Definition Rooted_destruct (addr : Ptr) (rt : Runtime) : Outcome Runtime :=
  reg ← pop addr (stackRoots rt);
  Done (withStackRoots reg rt).

(** Modelled from the spec: PersistentRoot (JS::PersistentRooted), which
    belongs to the engine and is not in this repository.  "init(context,
    initial) must run strictly after collector startup" and registers the
    root; an instance that was never initialized is an empty placeholder, in
    no root set.  The constructor that takes a context registers in the same
    way. *)
Definition PersistentRooted_init (root : Ptr) (initial : Rootable) (rt : Runtime)
    : Outcome Runtime :=
  if decide (phase rt = Running)
  then Done (logEvent (Registered root)
               (withPersistentRoots (<[root := initial]> (persistentRoots rt)) rt))
  else Abort NotRunning.

(** Modelled from the spec: "reset() deregisters"; on a root that is not
    registered it does nothing.  The destructor deregisters in the same
    way. *)
Definition PersistentRooted_reset (root : Ptr) (rt : Runtime) : Runtime :=
  match persistentRoots rt !! root with
  | Some _ =>
      logEvent (Deregistered root)
        (withPersistentRoots (delete root (persistentRoots rt)) rt)
  | None => rt
  end.

(** The native allocator: [size] fresh addresses. *)
Definition allocate (size : N) (rt : Runtime) : Ptr * Runtime :=
  (nextPtr rt, withNextPtr (nextPtr rt + size) rt).

(** SafeBox{}: an undefined stashed value and an empty container. *)
Definition defaultBox : SafeBox := {| stashed := UndefinedValue; container := [] |}.

(** js::MakeUnique<SafeBox>(), null when [ok] is false (out of memory). *)
Definition MakeUnique (ok : bool) (rt : Runtime) : UniquePtr SafeBox * Runtime :=
  if ok
  then let '(p, rt) := allocate 1 rt in (MakeUniquePtr (Some (p, defaultBox)), rt)
  else (MakeUniquePtr None, rt).

(** std::make_shared<SafeBox>() *)
Definition make_shared (rt : Runtime) : shared_ptr SafeBox * Runtime :=
  let '(p, rt) := allocate 1 rt in (SharedPtr (Some (p, defaultBox)), rt).

(** new SafeBox() *)
Definition new_SafeBox (rt : Runtime) : Ptr * Runtime :=
  let '(p, rt) := allocate 1 rt in
  (p, withNativeHeap (<[p := defaultBox]> (nativeHeap rt)) rt).

(** A cell no object of the heap lives at: one past the highest in use. *)
Definition freshCell (h : gmap positive JSObject) : Cell :=
  Pos.succ (foldr (λ entry top, Pos.max entry.1 top) 1%positive (map_to_list h)).

(** JS_NewObject(cx, clasp): may collect first (when [zeal]), and returns
    null when [ok] is false; the reserved slots of the new object are
    undefined. *)
Definition JS_NewObject (zeal ok : bool) (blank : JSObject) (rt : Runtime)
    : Outcome (JSObjectPtr * Runtime) :=
  rt ← (if zeal then orUndefined (JS_GC rt) else Done rt);
  if ok
  then let c := freshCell (gcHeap rt) in
       Done (Some c, withGcHeap (<[c := blank]> (gcHeap rt)) rt)
  else Done (None, rt).

(** JS_SetReservedSlot on the object at [c]. *)
Definition setReservedSlot (c : Cell) (slot : nat) (v : Value) (rt : Runtime)
    : Runtime :=
  withGcHeap (alter (λ obj, JS_SetReservedSlot obj slot v) c (gcHeap rt)) rt.

(** ** The example program *)

(** Storage of the globals and locals of the example. *)
Definition globalPtrSafe : Ptr := 1.
Definition globalMaybeSafe : Ptr := 2.
Definition eternalBox : Ptr := 3.
Definition stackSafe : Ptr := 16.
Definition heapSafe : Ptr := 17.
Definition sharedSafe : Ptr := 18.
Definition createObj : Ptr := 19.
Definition globalRoot : Ptr := 20.

(** What an execution depends on besides the code: which allocations fail,
    and which allocations of managed objects collect first. *)
Record Choices := mkChoices {
  heapSafeOk : bool;
  globalPtrOk : bool;
  globalZeal : bool;
  globalOk : bool;
  objectZeal : bool;
  objectOk : bool
}.

(** [if (!first) return false; next] *)
Definition andThen (first : Outcome (bool * Runtime))
    (next : Runtime → Outcome (bool * Runtime)) : Outcome (bool * Runtime) :=
  '(ok, rt) ← first;
  if ok : bool then next rt else Done (false, rt).

Definition CustomTypeExample (ch : Choices) (rt : Runtime) : Outcome (bool * Runtime) :=
  rt ← Rooted_construct stackSafe (RootSafeBox defaultBox) rt;
  let '(box, rt) := MakeUnique (heapSafeOk ch) rt in
  rt ← Rooted_construct heapSafe (RootUniquePtr box) rt;
  rt ← Rooted_destruct heapSafe rt;
  rt ← Rooted_destruct stackSafe rt;
  Done (true, rt).

Definition ExistingTypeExample (rt : Runtime) : Outcome (bool * Runtime) :=
  let '(box, rt) := make_shared rt in
  rt ← Rooted_construct sharedSafe (RootSharedPtr box) rt;
  rt ← Rooted_destruct sharedSafe rt;
  Done (true, rt).

(** mozilla::Maybe<JS::PersistentRooted<SafeBox>>: emplace(cx) constructs the
    root in place, which registers it; reset() destroys it, which
    deregisters it. *)
Definition Maybe_emplace (root : Ptr) (rt : Runtime) : Outcome Runtime :=
  PersistentRooted_init root (RootSafeBox defaultBox) rt.

Definition Maybe_reset (root : Ptr) (rt : Runtime) : Runtime :=
  PersistentRooted_reset root rt.

Definition GlobalRootExample (ch : Choices) (rt : Runtime) : Outcome (bool * Runtime) :=
  let '(box, rt) := MakeUnique (globalPtrOk ch) rt in
  rt ← PersistentRooted_init globalPtrSafe (RootUniquePtr box) rt;
  rt ← Maybe_emplace globalMaybeSafe rt;
  let rt := Maybe_reset globalMaybeSafe rt in
  let rt := PersistentRooted_reset globalPtrSafe rt in
  Done (true, rt).

(** struct EmbeddingContext: memberSafe at the start of the allocation and
    memberObjPtr after it, both registered by the constructor and
    deregistered, in reverse order, when the owning UniquePtr goes out of
    scope. *)
Definition EmbeddingRootExample (rt : Runtime) : Outcome (bool * Runtime) :=
  let '(ec, rt) := allocate 2 rt in
  rt ← PersistentRooted_init ec (RootSafeBox defaultBox) rt;
  rt ← PersistentRooted_init (ec + 1) (RootObject None) rt;
  let rt := PersistentRooted_reset (ec + 1) rt in
  let rt := PersistentRooted_reset ec rt in
  Done (true, rt).

(** CustomObject::create *)
Definition CustomObject_create (zeal ok : bool) (box1 box2 : Ptr) (rt : Runtime)
    : Outcome (JSObjectPtr * Runtime) :=
  '(obj, rt) ← JS_NewObject zeal ok CustomObject.newObject rt;
  rt ← Rooted_construct createObj (RootObject obj) rt;
  match obj with
  | None =>
      rt ← Rooted_destruct createObj rt;
      Done (None, rt)
  | Some c =>
      let rt := setReservedSlot c CustomObject.OwnedBoxSlot (PrivateValue box1) rt in
      let rt := setReservedSlot c CustomObject.UnownedBoxSlot (PrivateValue box2) rt in
      rt ← Rooted_destruct createObj rt;
      Done (Some c, rt)
  end.

(** Modelled from the spec: boilerplate::CreateGlobal, which is not in this
    repository ("realm/context bootstrap" is an external collaborator): the
    global is taken to be a plain object without reserved slots. *)
Definition CreateGlobal (zeal ok : bool) (rt : Runtime) : Outcome (JSObjectPtr * Runtime) :=
  JS_NewObject zeal ok {| clasp := PlainClass; reservedSlots := [] |} rt.

(** [static SafeBox eternalBox{}]: constructed when control first passes its
    declaration. *)
Definition staticEternalBox (rt : Runtime) : Runtime :=
  match nativeHeap rt !! eternalBox with
  | Some _ => rt
  | None => withNativeHeap (<[eternalBox := defaultBox]> (nativeHeap rt)) rt
  end.

(** CustomObjectExample; JSAutoRealm enters the realm of the global and
    registers nothing. *)
Definition CustomObjectExample (ch : Choices) (rt : Runtime) : Outcome (bool * Runtime) :=
  '(global, rt) ← CreateGlobal (globalZeal ch) (globalOk ch) rt;
  rt ← Rooted_construct globalRoot (RootObject global) rt;
  match global with
  | None =>
      rt ← Rooted_destruct globalRoot rt;
      Done (false, rt)
  | Some _ =>
      let '(box, rt) := new_SafeBox rt in
      let rt := staticEternalBox rt in
      '(obj, rt) ← CustomObject_create (objectZeal ch) (objectOk ch) box eternalBox rt;
      match obj with
      | None =>
          rt ← Rooted_destruct globalRoot rt;
          Done (false, rt)
      | Some _ =>
          rt ← orUndefined (JS_GC rt);
          rt ← Rooted_destruct globalRoot rt;
          Done (true, rt)
      end
  end.

Definition TracingExample (ch : Choices) (rt : Runtime) : Outcome (bool * Runtime) :=
  andThen (CustomTypeExample ch rt) (λ rt,
  andThen (ExistingTypeExample rt) (λ rt,
  andThen (GlobalRootExample ch rt) (λ rt,
  andThen (EmbeddingRootExample rt) (λ rt,
  CustomObjectExample ch rt)))).

(** Modelled from the spec: collector startup, before which no context
    exists. *)
Definition startup (rt : Runtime) : Outcome Runtime :=
  if decide (phase rt = NotStarted)
  then Done (logEvent Startup (withPhase Running rt))
  else Abort NotRunning.

(** Modelled from the spec: collector shutdown; a persistent root still
    registered then is "a fatal shutdown hazard, not a recoverable error". *)
Definition shutdown (rt : Runtime) : Outcome Runtime :=
  match map_to_list (persistentRoots rt) with
  | [] => Done (logEvent Shutdown (withPhase ShutDown rt))
  | _ :: _ => Abort RootAtShutdown
  end.

(** Modelled from the spec: boilerplate::RunExample, which is not in this
    repository ("example program wiring"): it is taken to start the engine,
    run the example it is given and shut the engine down; whether it also
    shuts the engine down after the example fails is left open
    ([shutdownOnFailure]). *)
Definition RunExample (shutdownOnFailure : bool)
    (task : Runtime → Outcome (bool * Runtime)) (rt : Runtime)
    : Outcome (bool * Runtime) :=
  rt ← startup rt;
  '(ok, rt) ← task rt;
  if ok || shutdownOnFailure
  then rt ← shutdown rt; Done (ok, rt)
  else Done (ok, rt).

Definition main (shutdownOnFailure : bool) (ch : Choices) : Outcome (bool * Runtime) :=
  RunExample shutdownOnFailure (TracingExample ch) initialRuntime.

(** What the event log of an execution has to satisfy: a persistent root is
    registered only while the engine runs, and none is registered when the
    engine shuts down. *)
Fixpoint protocolFrom (running : bool) (live : gset N) (evs : list Event) : bool :=
  match evs with
  | [] => true
  | Startup :: rest => protocolFrom true live rest
  | Registered root :: rest => running && protocolFrom running ({[root]} ∪ live) rest
  | Deregistered root :: rest => protocolFrom running (live ∖ {[root]}) rest
  | Shutdown :: rest => bool_decide (live = ∅) && protocolFrom false live rest
  end.

Definition respectsProtocol (evs : list Event) : bool := protocolFrom false ∅ evs.

(** ** A relocating pass *)

(** A moving collection belongs to the engine and is not in this
    repository.  By the spec the collector "updates relocated addresses":
    it moves each object that survives to the address [f] gives it and
    updates every edge it knows of, the slots of objects and boxes and the
    roots.  Two objects never share an address, so [f] is injective. *)

(** Modelled from the spec: an edge after relocation. *)
Definition relocateValue (f : Cell → Cell) (v : Value) : Value :=
  match v with
  | ObjectValue c => ObjectValue (f c)
  | _ => v
  end.

(** Modelled from the spec: a box whose slots were updated. *)
Definition relocateBox (f : Cell → Cell) (box : SafeBox) : SafeBox :=
  {| stashed := relocateValue f (stashed box);
     container := relocateValue f <$> container box |}.

(** Modelled from the spec: an object whose slots were updated; it is the
    same logical object, of the same class. *)
Definition relocateObject (f : Cell → Cell) (obj : JSObject) : JSObject :=
  {| clasp := clasp obj;
     reservedSlots := relocateValue f <$> reservedSlots obj |}.

(** Modelled from the spec: the box behind a smart pointer, updated. *)
Definition relocatePointee (f : Cell → Cell) (pointee : option (Ptr * SafeBox))
    : option (Ptr * SafeBox) :=
  prod_map id (relocateBox f) <$> pointee.

(** Modelled from the spec: what a root holds, updated. *)
Definition relocateRootable (f : Cell → Cell) (r : Rootable) : Rootable :=
  match r with
  | RootObject o => RootObject (f <$> o)
  | RootSafeBox b => RootSafeBox (relocateBox f b)
  | RootUniquePtr (MakeUniquePtr pointee) =>
      RootUniquePtr (MakeUniquePtr (relocatePointee f pointee))
  | RootSharedPtr (SharedPtr pointee) =>
      RootSharedPtr (SharedPtr (relocatePointee f pointee))
  end.

(** Modelled from the spec: traceAll "invoked by the collector ... again
    after relocation to fix up addresses": the walk over the registry, head
    to tail, with the tracer that updates each edge it visits. *)
Definition traceAllUpdating (f : Cell → Cell) (reg : StackRootRegistry)
    : StackRootRegistry :=
  (λ node, (node.1, relocateRootable f node.2)) <$> reg.

(** Modelled from the spec: the relocation of a whole runtime. *)
Definition relocate (f : Cell → Cell) (rt : Runtime) : Runtime :=
  {| phase := phase rt;
     gcHeap := kmap f (relocateObject f <$> gcHeap rt);
     nativeHeap := relocateBox f <$> nativeHeap rt;
     nextPtr := nextPtr rt;
     stackRoots := traceAllUpdating f (stackRoots rt);
     persistentRoots := relocateRootable f <$> persistentRoots rt;
     finalized := finalized rt;
     events := events rt |}.

(** Modelled from the spec: a relocating collection pass: collect, then
    move what survived. *)
Definition relocatingGC (f : Cell → Cell) (rt : Runtime) : option Runtime :=
  rt ← JS_GC rt;
  Some (relocate f rt).

(** What a Handle, a MutableHandle or the RootedSlot itself at [addr]
    resolves to: the object its root refers to. *)
Definition resolve (rt : Runtime) (addr : Ptr) : option JSObject :=
  r ← rootAt addr (stackRoots rt);
  match r with
  | RootObject (Some c) => gcHeap rt !! c
  | _ => None
  end.

(** ** Checkers *)

(** The ownership discipline as a check on a concrete heap. *)
Definition usableb (nh : NativeHeap) (p : Ptr) : bool :=
  negb (nonNull p) || bool_decide (is_Some (nh !! p)).

Definition slotsOk (nh : NativeHeap) (obj : JSObject) : bool :=
  match clasp obj with
  | PlainClass => true
  | CustomClass =>
      match CustomObject.ownedBox obj, CustomObject.unownedBox obj with
      | Some o, Some u => usableb nh o && usableb nh u
      | _, _ => false
      end
  end.

Definition borrowedPtr (obj : JSObject) : option Ptr :=
  match clasp obj with
  | CustomClass => CustomObject.unownedBox obj
  | PlainClass => None
  end.

Definition compatible (e1 e2 : Cell * JSObject) : bool :=
  match ownedPtr e2.2 with
  | None => true
  | Some p =>
      (bool_decide (e1.1 = e2.1) || negb (bool_decide (ownedPtr e1.2 = Some p)))
      && negb (bool_decide (borrowedPtr e1.2 = Some p))
  end.

Definition checkWellFormed (h : gmap positive JSObject) (nh : NativeHeap) : bool :=
  forallb (λ e, slotsOk nh e.2) (map_to_list h)
  && forallb (λ e1, forallb (compatible e1) (map_to_list h)) (map_to_list h).

(** A set of cells that holds what every root refers to and, with a cell,
    what the object there refers to. *)
Definition closedUnder (rt : Runtime) (cells : gset Cell) : bool :=
  forallb (λ node, bool_decide (rootableReferents node.2 ⊆ cells))
    (stackRoots rt ++ map_to_list (persistentRoots rt))
  && forallb (λ e, bool_decide (e.1 ∉ cells)
                   || bool_decide (objectReferents (nativeHeap rt) e.2 ⊆ cells))
       (map_to_list (gcHeap rt)).

(** ** Sample data *)

Module Sample.

Definition boxA : SafeBox :=
  {| stashed := ObjectValue 7; container := [ObjectValue 5; Int32Value 3] |}.

Definition boxB : SafeBox :=
  {| stashed := UndefinedValue; container := [ObjectValue 9] |}.

(** boxA allocated at address 1 and boxB at address 2. *)
Definition heap : NativeHeap := <[1%N := boxA]> (<[2%N := boxB]> ∅).

(** A CustomObject owning the box at 1 and borrowing the box at 2. *)
Definition custom : JSObject := CustomObject.initSlots 1 2.

(** A CustomObject reaching the box at 1 through both slots. *)
Definition aliased : JSObject := CustomObject.initSlots 1 1.

(** A CustomObject whose owned slot is null. *)
Definition borrowing : JSObject := CustomObject.initSlots nullptr 2.

(** A box that refers to the object at cell 4, and a plain object. *)
Definition ownedBoxOf3 : SafeBox := {| stashed := ObjectValue 4; container := [] |}.

Definition plain : JSObject := {| clasp := PlainClass; reservedSlots := [] |}.

(** A running engine whose stack roots the global at cell 2.  The
    CustomObject at cell 3 owns the box at 261, which refers to the plain
    object at cell 4, and borrows the static box at 3; nothing refers to the
    CustomObject. *)
Definition runtime : Runtime :=
  {| phase := Running;
     gcHeap := <[2%positive := plain]>
                 (<[3%positive := CustomObject.initSlots 261 3]>
                    (<[4%positive := plain]> ∅));
     nativeHeap := <[261%N := ownedBoxOf3]> (<[3%N := defaultBox]> ∅);
     nextPtr := 262;
     stackRoots := [(20%N, RootObject (Some 2%positive))];
     persistentRoots := ∅;
     finalized := [];
     events := [Startup] |}.

(** The same engine with the object at cell 4 held by a persistent root
    stored at address 1. *)
Definition rooted : Runtime :=
  withPersistentRoots {[ 1%N := RootObject (Some 4%positive) ]} runtime.

End Sample.

(** ** Reachability without one persistent root *)

(** A root of the runtime other than the persistent root stored at [root]:
    any node of the stack registry, or a persistent root at another
    address. *)
Definition isOtherRoot (rt : Runtime) (root : Ptr) (r : Rootable) : Prop :=
  (∃ addr, (addr, r) ∈ stackRoots rt)
  ∨ (∃ addr, addr ≠ root ∧ persistentRoots rt !! addr = Some r).

(** A cell is reachable elsewhere when some trace path leads to it from a
    root other than the persistent root stored at [root]. *)
Inductive reachableElsewhere (rt : Runtime) (root : Ptr) : Cell → Prop :=
| elsewhere_root r c :
    isOtherRoot rt root r → c ∈ rootableReferents r → reachableElsewhere rt root c
| elsewhere_edge c obj d :
    reachableElsewhere rt root c → gcHeap rt !! c = Some obj →
    d ∈ objectReferents (nativeHeap rt) obj → reachableElsewhere rt root d.

(** The runtime with the entry at [root] taken out of the persistent root
    set, on which the check [closedUnder] decides reachability elsewhere. *)
Definition withoutRoot (root : Ptr) (rt : Runtime) : Runtime :=
  withPersistentRoots (delete root (persistentRoots rt)) rt.

(** ** Further conditions on a runtime *)

(** Every cell some trace path leads to holds an object: no root and no slot
    refers to a cell that was reclaimed. *)
Definition noDangling (rt : Runtime) : Prop :=
  ∀ d, reachable rt d → is_Some (gcHeap rt !! d).

(** No object of the heap borrows the box at [p]. *)
Definition unborrowed (h : gmap positive JSObject) (p : Ptr) : Prop :=
  ∀ c obj, h !! c = Some obj → borrowedPtr obj ≠ Some p.

(** The two conditions above and [unowned] as checks on a concrete heap. *)
Definition unownedb (h : gmap positive JSObject) (p : Ptr) : bool :=
  forallb (λ e, negb (bool_decide (ownedPtr e.2 = Some p))) (map_to_list h).

Definition unborrowedb (h : gmap positive JSObject) (p : Ptr) : bool :=
  forallb (λ e, negb (bool_decide (borrowedPtr e.2 = Some p))) (map_to_list h).

Definition noDanglingb (rt : Runtime) (cells : gset Cell) : bool :=
  closedUnder rt cells && bool_decide (cells ⊆ dom (gcHeap rt)).

(** The collection JS_NewObject may run before it allocates. *)
Definition zealCollection (zeal : bool) (rt : Runtime) : option Runtime :=
  if zeal then JS_GC rt else Some rt.

(** ** More sample data *)

Module Scenario.

(** A running engine with the global at cell 2 rooted on the stack, a box
    from [new] at 261 that refers to the global, and the static box at 3. *)
Definition newBox : SafeBox := {| stashed := ObjectValue 2; container := [] |}.

Definition beforeCreate : Runtime :=
  {| phase := Running;
     gcHeap := {[ 2%positive := Sample.plain ]};
     nativeHeap := <[261%N := newBox]> (<[3%N := defaultBox]> ∅);
     nextPtr := 262;
     stackRoots := [(20%N, RootObject (Some 2%positive))];
     persistentRoots := ∅;
     finalized := [];
     events := [Startup] |}.

(** The same engine once a CustomObject at cell 3, owning the box at 261 and
    borrowing the static box, is rooted on the stack as well. *)
Definition withRootedCustom : Runtime :=
  {| phase := Running;
     gcHeap := <[3%positive := CustomObject.initSlots 261 3]>
                 {[ 2%positive := Sample.plain ]};
     nativeHeap := <[261%N := newBox]> (<[3%N := defaultBox]> ∅);
     nextPtr := 262;
     stackRoots := [(21%N, RootObject (Some 3%positive));
                    (20%N, RootObject (Some 2%positive))];
     persistentRoots := ∅;
     finalized := [];
     events := [Startup] |}.

(** Two CustomObjects that nothing refers to and that own the same box. *)
Definition sharedOwner : Runtime :=
  {| phase := Running;
     gcHeap := <[3%positive := CustomObject.initSlots 261 0]>
                 (<[4%positive := CustomObject.initSlots 261 0]> ∅);
     nativeHeap := {[ 261%N := defaultBox ]};
     nextPtr := 262;
     stackRoots := [];
     persistentRoots := ∅;
     finalized := [];
     events := [Startup] |}.

End Scenario.

(** * Properties *)

Section SafeBoxTrace.

Lemma markReferent_union o m : markReferent o m = markReferent o ∅ ∪ m.
Proof.
  destruct o; simpl.
  - by rewrite (right_id_L ∅ (∪)).
  - by rewrite (left_id_L ∅ (∪)).
Qed.

Lemma traceContainer_visits this elems : ∀ i trc,
  visits (traceContainer this i elems trc)
  = visits trc ++ containerEdges this i (length elems).
Proof.
  induction elems as [|e rest IH]; intros i trc; simpl.
  - by rewrite app_nil_r.
  - rewrite IH. simpl. by rewrite <- app_assoc.
Qed.

Lemma traceContainer_marked this elems : ∀ i trc,
  marked (traceContainer this i elems trc)
  = valuesReferents elems ∪ marked trc.
Proof.
  induction elems as [|e rest IH]; intros i trc; simpl.
  - set_solver.
  - rewrite IH. simpl.
    rewrite (markReferent_union _ (marked trc)).
    rewrite (markReferent_union _ (valuesReferents rest)).
    set_solver.
Qed.

Lemma SafeBox_trace_visits this box trc :
  visits (SafeBox_trace this box trc) = visits trc ++ boxEdges this box.
Proof.
  unfold SafeBox_trace, boxEdges.
  rewrite traceContainer_visits. simpl. by rewrite <- app_assoc.
Qed.

Lemma SafeBox_trace_marked this box trc :
  marked (SafeBox_trace this box trc) = boxReferents box ∪ marked trc.
Proof.
  unfold SafeBox_trace, boxReferents.
  rewrite traceContainer_marked. simpl.
  rewrite (markReferent_union _ (marked trc)).
  rewrite (markReferent_union _ (valuesReferents _)).
  set_solver.
Qed.

Lemma containerEdges_length this i n : length (containerEdges this i n) = n.
Proof. unfold containerEdges. by rewrite length_fmap, length_seq. Qed.

End SafeBoxTrace.

(** ** SafeBox::trace visits every field *)

(** C4: one call of SafeBox::trace on a box whose container has n elements
    makes exactly n+1 calls of the generic trace entry point: first the
    stashed slot, then each container element in order, all on the box's own
    slots. *)
Theorem SafeBox_trace_visits_every_field (this : Ptr) (box : SafeBox) (trc : JSTracer) :
  length (visits (SafeBox_trace this box trc))
  = length (visits trc) + (length (container box) + 1)
  ∧ visits (SafeBox_trace this box trc) = visits trc ++ boxEdges this box
  ∧ (StashedOf this, "stashed value") ∈ visits (SafeBox_trace this box trc)
  ∧ ∀ i, i < length (container box) →
         (ElemOf this i, "container value") ∈ visits (SafeBox_trace this box trc).
Proof.
  rewrite SafeBox_trace_visits. split_and!.
  - rewrite length_app. unfold boxEdges. simpl.
    rewrite containerEdges_length. lia.
  - done.
  - apply elem_of_app. right. unfold boxEdges. apply list_elem_of_here.
  - intros i Hi. apply elem_of_app. right. unfold boxEdges.
    apply list_elem_of_further. unfold containerEdges.
    apply (list_elem_of_fmap_2 (λ k, (ElemOf this k, "container value"))).
    apply elem_of_seq. lia.
Qed.

(** ** The class hooks of CustomObject *)

Section CustomObjectHooks.

Import CustomObject.

Lemma traceBox_usable nh b trc :
  usable nh b →
  ∃ trc', traceBox nh b trc = Some trc'
          ∧ visits trc' = visits trc ++ edgesVia nh b
          ∧ marked trc' = referentsVia nh b ∪ marked trc.
Proof.
  unfold usable, traceBox, edgesVia, referentsVia.
  intros [-> | [box Hbox]].
  - simpl. exists trc. split_and!; [done | by rewrite app_nil_r |].
    by rewrite (left_id_L ∅ (∪)).
  - destruct (nonNull b) eqn:Hb.
    + rewrite Hbox. simpl. eexists. split_and!; [done | |].
      * apply SafeBox_trace_visits.
      * apply SafeBox_trace_marked.
    + exists trc. split_and!; [done | by rewrite app_nil_r |].
      by rewrite (left_id_L ∅ (∪)).
Qed.

Lemma trace_usable nh obj trc o u :
  ownedBox obj = Some o → unownedBox obj = Some u →
  usable nh o → usable nh u →
  ∃ trc', trace nh obj trc = Some trc'
          ∧ visits trc' = visits trc ++ edgesVia nh o ++ edgesVia nh u
          ∧ marked trc' = referentsVia nh o ∪ referentsVia nh u ∪ marked trc.
Proof.
  intros Ho Hu Uo Uu. unfold trace. rewrite Ho, Hu. simpl.
  destruct (traceBox_usable nh o trc Uo) as (t1 & E1 & V1 & M1).
  destruct (traceBox_usable nh u t1 Uu) as (t2 & E2 & V2 & M2).
  rewrite E1. simpl. exists t2. split_and!; [done | |].
  - by rewrite V2, V1, <- app_assoc.
  - rewrite M2, M1. set_solver.
Qed.

Lemma edgesVia_box nh p box :
  p ≠ nullptr → nh !! p = Some box → edgesVia nh p = boxEdges p box.
Proof.
  intros Hp Hbox. unfold edgesVia, nonNull.
  destruct (N.eqb_spec p nullptr) as [|_]; [done|]. by rewrite Hbox.
Qed.

Lemma finalize_owned nh obj o :
  ownedBox obj = Some o → finalize nh obj = delete_ o nh.
Proof. intros Ho. unfold finalize. by rewrite Ho. Qed.

(** What create stores is what the hooks read back, and the slots of an
    object that create has not filled yet read as null. *)
Lemma initSlots_boxes box1 box2 :
  ownedBox (initSlots box1 box2) = Some box1
  ∧ unownedBox (initSlots box1 box2) = Some box2.
Proof. done. Qed.

Lemma newObject_boxes :
  ownedBox newObject = Some nullptr ∧ unownedBox newObject = Some nullptr.
Proof. done. Qed.

End CustomObjectHooks.

(** C2: the trace hook of CustomObject reaches the private data in both
    reserved slots.  Whenever each slot holds null or the address of a live
    box, the hook succeeds; what it visits is exactly the edges of the owned
    box followed by those of the unowned box; so for each non-null box its
    stashed slot and every container element are visited, and the cells they
    refer to are marked. *)
Theorem CustomObject_trace_visits_both_boxes
    (nh : gmap N SafeBox) (obj : JSObject) (trc : JSTracer) (o u : Ptr) :
  CustomObject.ownedBox obj = Some o →
  CustomObject.unownedBox obj = Some u →
  usable nh o → usable nh u →
  ∃ trc', CustomObject.trace nh obj trc = Some trc'
    ∧ visits trc' = visits trc ++ edgesVia nh o ++ edgesVia nh u
    ∧ marked trc' = referentsVia nh o ∪ referentsVia nh u ∪ marked trc
    ∧ ∀ p box, (p = o ∨ p = u) → p ≠ nullptr → nh !! p = Some box →
        (StashedOf p, "stashed value") ∈ visits trc'
        ∧ (∀ i, i < length (container box) →
                (ElemOf p i, "container value") ∈ visits trc')
        ∧ boxReferents box ⊆ marked trc'.
Proof.
  intros Ho Hu Uo Uu.
  destruct (trace_usable nh obj trc o u Ho Hu Uo Uu) as (trc' & E & V & M).
  exists trc'. split_and!; try done.
  intros p box Hp Hnn Hbox.
  assert (Hin : ∀ e, e ∈ boxEdges p box → e ∈ visits trc').
  { intros e He. rewrite V. apply elem_of_app. right. apply elem_of_app.
    destruct Hp as [-> | ->]; [left | right];
      by rewrite (edgesVia_box _ _ box). }
  assert (Hsub : boxReferents box ⊆ referentsVia nh o ∪ referentsVia nh u).
  { assert (Hr : referentsVia nh p = boxReferents box).
    { unfold referentsVia, nonNull.
      destruct (N.eqb_spec p nullptr) as [|_]; [done|]. by rewrite Hbox. }
    destruct Hp as [-> | ->]; rewrite <- Hr; set_solver. }
  split_and!.
  - apply Hin. apply list_elem_of_here.
  - intros i Hi. apply Hin. apply list_elem_of_further.
    apply (list_elem_of_fmap_2 (λ k, (ElemOf p k, "container value"))).
    apply elem_of_seq. lia.
  - rewrite M. set_solver.
Qed.

Lemma CustomObject_trace_visits_both_boxes_witness :
  ∃ trc', CustomObject.trace Sample.heap Sample.custom newTracer = Some trc'
    ∧ visits trc' = visits newTracer ++ edgesVia Sample.heap 1 ++ edgesVia Sample.heap 2
    ∧ marked trc' = referentsVia Sample.heap 1 ∪ referentsVia Sample.heap 2 ∪ marked newTracer
    ∧ ∀ p box, (p = 1%N ∨ p = 2%N) → p ≠ nullptr → Sample.heap !! p = Some box →
        (StashedOf p, "stashed value") ∈ visits trc'
        ∧ (∀ i, i < length (container box) →
                (ElemOf p i, "container value") ∈ visits trc')
        ∧ boxReferents box ⊆ marked trc'.
Proof.
  apply (CustomObject_trace_visits_both_boxes Sample.heap Sample.custom newTracer 1 2).
  - reflexivity.
  - reflexivity.
  - right. exists Sample.boxA. reflexivity.
  - right. exists Sample.boxB. reflexivity.
Defined.

(** C10: null reserved-slot contents are a safe state for both hooks.  With
    a null pointer in a slot the trace hook makes no visit for that slot and
    reads no box through it, whatever the native heap holds: with both slots
    null it returns the tracer unchanged, with one slot null it does exactly
    what tracing the other box does; and the finalize hook's delete of a null
    owned box leaves the native heap as it is. *)
Theorem CustomObject_hooks_null_safe
    (nh : NativeHeap) (obj : JSObject) (trc : JSTracer) :
  (CustomObject.ownedBox obj = Some nullptr →
   CustomObject.unownedBox obj = Some nullptr →
   CustomObject.trace nh obj trc = Some trc)
  ∧ (∀ u box, CustomObject.ownedBox obj = Some nullptr →
       CustomObject.unownedBox obj = Some u → u ≠ nullptr → nh !! u = Some box →
       CustomObject.trace nh obj trc = Some (SafeBox_trace u box trc))
  ∧ (∀ o box, CustomObject.ownedBox obj = Some o →
       CustomObject.unownedBox obj = Some nullptr → o ≠ nullptr → nh !! o = Some box →
       CustomObject.trace nh obj trc = Some (SafeBox_trace o box trc))
  ∧ (CustomObject.ownedBox obj = Some nullptr →
     CustomObject.finalize nh obj = Some nh).
Proof.
  assert (Hnn : ∀ p, p ≠ nullptr → nonNull p = true).
  { intros p Hp. unfold nonNull. by destruct (N.eqb_spec p nullptr). }
  unfold CustomObject.trace, CustomObject.finalize, CustomObject.traceBox, delete_.
  split_and!.
  - intros -> ->. reflexivity.
  - intros u box -> -> Hu Hbox. simpl. rewrite (Hnn u Hu), Hbox. reflexivity.
  - intros o box -> -> Ho Hbox. simpl. rewrite (Hnn o Ho), Hbox. reflexivity.
  - intros ->. reflexivity.
Qed.

Lemma CustomObject_hooks_null_safe_witness :
  CustomObject.trace Sample.heap Sample.borrowing newTracer
  = Some (SafeBox_trace 2 Sample.boxB newTracer)
  ∧ CustomObject.finalize Sample.heap Sample.borrowing = Some Sample.heap.
Proof.
  destruct (CustomObject_hooks_null_safe Sample.heap Sample.borrowing newTracer)
    as (_ & Hunowned & _ & Hfinalize).
  split.
  - apply (Hunowned 2%N Sample.boxB); [reflexivity | reflexivity | discriminate | reflexivity].
  - apply Hfinalize. reflexivity.
Defined.

(** ** Visiting an edge more than once *)

Lemma markReferent_idemp o m : markReferent o (markReferent o m) = markReferent o m.
Proof. destruct o; simpl; [|done]. by rewrite (assoc_L (∪)), (idemp_L (∪)). Qed.

(** C9: within one pass, visiting the same edge a second time leaves the
    marking state as the first visit left it; and a trace hook that reaches
    one box through both of its slots ends with the marking state that
    tracing the box once gives. *)
Theorem visiting_an_edge_twice_marks_once :
  (∀ (T : Type) (E : GCThingEdge T) (trc : JSTracer) (addr : SlotAddr)
     (slot : T) (name : string),
     marked (TraceEdge (TraceEdge trc addr slot name) addr slot name)
     = marked (TraceEdge trc addr slot name))
  ∧ (∀ (this : Ptr) (box : SafeBox) (trc : JSTracer),
       marked (SafeBox_trace this box (SafeBox_trace this box trc))
       = marked (SafeBox_trace this box trc))
  ∧ (∀ (nh : NativeHeap) (obj : JSObject) (trc : JSTracer) (p : Ptr) (box : SafeBox),
       CustomObject.ownedBox obj = Some p →
       CustomObject.unownedBox obj = Some p →
       p ≠ nullptr → nh !! p = Some box →
       ∃ trc', CustomObject.trace nh obj trc = Some trc'
               ∧ marked trc' = marked (SafeBox_trace p box trc)).
Proof.
  split_and!.
  - intros T E trc addr slot name. simpl. apply markReferent_idemp.
  - intros this box trc. rewrite !SafeBox_trace_marked.
    by rewrite (assoc_L (∪)), (idemp_L (∪)).
  - intros nh obj trc p box Ho Hu Hp Hbox.
    unfold CustomObject.trace, CustomObject.traceBox. rewrite Ho, Hu. simpl.
    assert (Hnn : nonNull p = true).
    { unfold nonNull. by destruct (N.eqb_spec p nullptr). }
    rewrite Hnn, Hbox. simpl.
    eexists. split; [done|].
    rewrite !SafeBox_trace_marked.
    by rewrite (assoc_L (∪)), (idemp_L (∪)).
Qed.

Lemma visiting_an_edge_twice_marks_once_witness :
  ∃ trc', CustomObject.trace Sample.heap Sample.aliased newTracer = Some trc'
          ∧ marked trc' = marked (SafeBox_trace 1 Sample.boxA newTracer).
Proof.
  destruct visiting_an_edge_twice_marks_once as (_ & _ & Hhook).
  apply (Hhook Sample.heap Sample.aliased newTracer 1%N Sample.boxA);
    [reflexivity | reflexivity | discriminate | reflexivity].
Defined.

(** ** The pass-through policy for shared pointers *)

(** C5: on a shared pointer with no current target the policy's trace
    returns the tracer as it got it (no edge visit, nothing read through the
    pointer), needsSweep is false and isValid is true; with a target, each
    operation is the wrapped type's policy applied to the target. *)
Theorem shared_ptr_policy_passes_through
    (T : Type) (P : GCPolicy T) (trc : JSTracer) (tp : Ptr) (name : string) :
  trace trc tp (SharedPtr (T := T) None) name = trc
  ∧ visits (trace trc tp (SharedPtr (T := T) None) name) = visits trc
  ∧ shared_get (SharedPtr (T := T) None) = nullptr
  ∧ needsSweep (SharedPtr (T := T) None) = false
  ∧ isValid (SharedPtr (T := T) None) = true
  ∧ ∀ (target : Ptr) (t : T),
      trace trc tp (SharedPtr (Some (target, t))) name = trace trc target t name
      ∧ needsSweep (SharedPtr (Some (target, t))) = needsSweep t
      ∧ isValid (SharedPtr (Some (target, t))) = isValid t.
Proof. by split_and!. Qed.

(** ** The stack root registry *)

Section Registry.

Lemma constructAll_rev nodes : ∀ reg : StackRootRegistry,
  constructAll nodes reg = reverse nodes ++ reg.
Proof.
  unfold constructAll, push.
  induction nodes as [|n nodes IH]; intros reg; simpl; [done|].
  rewrite IH, reverse_cons. by rewrite <- app_assoc.
Qed.

Lemma destructAll_prefix (l reg : StackRootRegistry) :
  destructAll l.*1 (l ++ reg) = Done reg.
Proof.
  induction l as [|[a r] l IH]; simpl; [done|].
  rewrite decide_True by done. simpl. apply IH.
Qed.

Lemma destructAll_outcome addrs : ∀ reg : StackRootRegistry,
  destructAll addrs reg = Abort LifoViolation
  ∨ ∃ reg', destructAll addrs reg = Done reg' ∧ reg.*1 = addrs ++ reg'.*1.
Proof.
  induction addrs as [|a addrs IH]; intros reg; simpl.
  - right. by exists reg.
  - destruct reg as [|[h r] rest]; simpl; [by left|].
    case_decide as Hh; simpl; [|by left]. subst.
    destruct (IH rest) as [Hab | (reg' & Hd & Heq)]; [by left|].
    right. exists reg'. split; [done|]. simpl. by f_equal.
Qed.

End Registry.

(** C1: when stack roots are constructed in some order and destroyed in
    exactly the reverse order, the registry is empty afterwards; a pop of a
    node that is not the current head is not performed but reported as a LIFO
    violation; and any sequence of destructions either follows the reverse
    construction order or is reported as such a violation. *)
Theorem stack_roots_are_lifo :
  (∀ nodes : list (Ptr * Rootable),
     destructAll (reverse nodes.*1) (constructAll nodes []) = Done [])
  ∧ (∀ (addr : Ptr) (reg : StackRootRegistry),
       head reg.*1 ≠ Some addr → pop addr reg = Abort LifoViolation)
  ∧ (∀ (nodes : list (Ptr * Rootable)) (addrs : list Ptr),
       destructAll addrs (constructAll nodes []) = Abort LifoViolation
       ∨ ∃ reg', destructAll addrs (constructAll nodes []) = Done reg'
                 ∧ reverse nodes.*1 = addrs ++ reg'.*1).
Proof.
  split_and!.
  - intros nodes. rewrite constructAll_rev, <- fmap_reverse.
    apply destructAll_prefix.
  - intros addr [|[h r] rest] Hhead; simpl; [done|].
    simpl in Hhead. case_decide; [|done]. by subst.
  - intros nodes addrs.
    destruct (destructAll_outcome addrs (constructAll nodes [])) as [?|(reg' & Hd & Heq)];
      [by left|].
    right. exists reg'. split; [done|].
    by rewrite <- Heq, constructAll_rev, app_nil_r, fmap_reverse.
Qed.

Lemma stack_roots_are_lifo_witness :
  pop 16 [(17%N, RootSafeBox Sample.boxA); (16%N, RootObject None)]
  = Abort LifoViolation.
Proof.
  destruct stack_roots_are_lifo as (_ & Hpop & _).
  apply Hpop. simpl. discriminate.
Defined.

(** ** Marking *)

Section Marking.

Lemma traceSlots_marked c slots : ∀ i trc,
  marked (traceSlots c i slots trc) = valuesReferents slots ∪ marked trc.
Proof.
  induction slots as [|v rest IH]; intros i trc; simpl.
  - by rewrite (left_id_L ∅ (∪)).
  - rewrite IH. simpl.
    rewrite (markReferent_union _ (marked trc)).
    rewrite (markReferent_union _ (valuesReferents rest)).
    set_solver.
Qed.

Lemma traceRootable_marked trc addr r :
  marked (traceRootable trc addr r) = rootableReferents r ∪ marked trc.
Proof.
  destruct r as [[c|] | b | [[[p b]|]] | [[[p b]|]]]; simpl;
    rewrite ?SafeBox_trace_marked, ?(left_id_L ∅ (∪)), ?(right_id_L ∅ (∪)); done.
Qed.

Lemma traceAll_marked (reg : StackRootRegistry) : ∀ trc c,
  c ∈ marked (traceAll reg trc)
  ↔ c ∈ marked trc ∨ ∃ node, node ∈ reg ∧ c ∈ rootableReferents node.2.
Proof.
  unfold traceAll.
  induction reg as [|node reg IH]; intros trc c; simpl.
  - split; [by left|]. intros [?|(node & Hin & _)]; [done|].
    by apply elem_of_nil in Hin.
  - rewrite IH, traceRootable_marked, elem_of_union. split.
    + intros [[Hr|Hm]|(n & Hin & Hr)].
      * right. exists node. split; [apply list_elem_of_here | done].
      * by left.
      * right. exists n. split; [by apply list_elem_of_further | done].
    + intros [Hm|(n & Hin & Hr)]; [by left; right|].
      apply elem_of_cons in Hin as [->|Hin]; [by left; left|].
      right. by exists n.
Qed.

Lemma traceRoots_marked rt c :
  c ∈ marked (traceRoots rt newTracer)
  ↔ ∃ r, isRoot rt r ∧ c ∈ rootableReferents r.
Proof.
  unfold traceRoots, tracePersistent, isRoot.
  rewrite traceAll_marked, traceAll_marked. simpl. split.
  - intros [[Hempty|(node & Hin & Hr)]|(node & Hin & Hr)].
    + by apply not_elem_of_empty in Hempty.
    + exists node.2. split; [|done]. left. exists node.1. by destruct node.
    + exists node.2. split; [|done]. right. exists node.1.
      apply elem_of_map_to_list. by destruct node.
  - intros (r & [[addr Hin]|[addr Hin]] & Hr).
    + left. right. by exists (addr, r).
    + right. exists (addr, r). split; [|done]. by apply elem_of_map_to_list.
Qed.

(** Under the ownership discipline the trace of an object succeeds and marks
    what the object refers to. *)
Lemma traceObject_marked h nh c obj trc :
  wellFormed h nh → h !! c = Some obj →
  ∃ trc', traceObject nh c obj trc = Some trc'
          ∧ marked trc' = objectReferents nh obj ∪ marked trc.
Proof.
  intros Hwf Hc. unfold traceObject, objectReferents.
  destruct (clasp obj) eqn:Hclasp.
  - eexists. split; [done|]. rewrite traceSlots_marked. set_solver.
  - destruct (wf_slots _ _ Hwf c obj Hc Hclasp) as (o & u & Ho & Hu & Uo & Uu).
    destruct (trace_usable nh obj (traceSlots c 0 (reservedSlots obj) trc) o u
                Ho Hu Uo Uu) as (trc' & E & _ & M).
    exists trc'. split; [done|].
    rewrite M, traceSlots_marked, Ho, Hu. simpl. set_solver.
Qed.

Lemma traceCells_marked h nh cells : ∀ trc,
  wellFormed h nh →
  ∃ trc', traceCells h nh cells trc = Some trc'
    ∧ ∀ d, d ∈ marked trc'
           ↔ d ∈ marked trc
             ∨ ∃ c obj, c ∈ cells ∧ h !! c = Some obj ∧ d ∈ objectReferents nh obj.
Proof.
  induction cells as [|c rest IH]; intros trc Hwf; simpl.
  - exists trc. split; [done|]. intros d. split; [by left|].
    intros [?|(c & obj & Hin & _)]; [done|]. by apply elem_of_nil in Hin.
  - destruct (h !! c) as [obj|] eqn:Hc.
    + destruct (traceObject_marked h nh c obj trc Hwf Hc) as (t1 & E1 & M1).
      rewrite E1. simpl.
      destruct (IH t1 Hwf) as (t2 & E2 & M2).
      exists t2. split; [done|]. intros d. rewrite M2, M1, elem_of_union. split.
      * intros [[Hd|Hd]|(c' & obj' & Hin & Hc' & Hd)].
        -- right. exists c, obj. split; [apply list_elem_of_here | done].
        -- by left.
        -- right. exists c', obj'. split; [by apply list_elem_of_further | done].
      * intros [Hd|(c' & obj' & Hin & Hc' & Hd)]; [by left; right|].
        apply elem_of_cons in Hin as [->|Hin].
        -- left. left. by simplify_eq.
        -- right. by exists c', obj'.
    + simpl. destruct (IH trc Hwf) as (t2 & E2 & M2).
      exists t2. split; [done|]. intros d. rewrite M2. split.
      * intros [Hd|(c' & obj' & Hin & Hc' & Hd)]; [by left|].
        right. exists c', obj'. split; [by apply list_elem_of_further | done].
      * intros [Hd|(c' & obj' & Hin & Hc' & Hd)]; [by left|].
        apply elem_of_cons in Hin as [->|Hin]; [by simplify_eq|].
        right. by exists c', obj'.
Qed.

Lemma markStep_marked h nh trc :
  wellFormed h nh →
  ∃ trc', markStep h nh trc = Some trc'
    ∧ ∀ d, d ∈ marked trc'
           ↔ d ∈ marked trc
             ∨ ∃ c obj, c ∈ marked trc ∧ h !! c = Some obj
                        ∧ d ∈ objectReferents nh obj.
Proof.
  intros Hwf. unfold markStep.
  destruct (traceCells_marked h nh (elements (marked trc)) trc Hwf) as (t & E & M).
  exists t. split; [done|]. intros d. rewrite M.
  by setoid_rewrite elem_of_elements.
Qed.

(** Marking succeeds, keeps what was marked, and marks nothing that no trace
    path leads to. *)
Lemma markLoop_marked rt rounds : ∀ trc,
  wellFormed (gcHeap rt) (nativeHeap rt) →
  (∀ c, c ∈ marked trc → reachable rt c) →
  ∃ trc', markLoop rounds (gcHeap rt) (nativeHeap rt) trc = Some trc'
    ∧ marked trc ⊆ marked trc'
    ∧ ∀ c, c ∈ marked trc' → reachable rt c.
Proof.
  induction rounds as [|rounds IH]; intros trc Hwf Hsound; simpl.
  - by exists trc.
  - destruct (markStep_marked _ _ trc Hwf) as (t1 & E1 & M1).
    rewrite E1. simpl.
    destruct (IH t1 Hwf) as (t2 & E2 & Hsub & Hsound2).
    { intros d [Hd|(c & obj & Hc & Hobj & Hd)]%M1; [by apply Hsound|].
      eapply reachable_edge; [by apply Hsound | done | done]. }
    exists t2. split_and!; [done | | done].
    intros c Hc. apply Hsub, M1. by left.
Qed.

Lemma mark_spec rt :
  wellFormed (gcHeap rt) (nativeHeap rt) →
  ∃ trc, mark rt = Some trc
    ∧ (∀ r c, isRoot rt r → c ∈ rootableReferents r → c ∈ marked trc)
    ∧ (∀ c, c ∈ marked trc → reachable rt c).
Proof.
  intros Hwf. unfold mark.
  destruct (markLoop_marked rt (size (gcHeap rt)) (traceRoots rt newTracer) Hwf)
    as (trc & E & Hsub & Hsound).
  { intros c (r & Hr & Hc)%traceRoots_marked. by eapply reachable_root. }
  exists trc. split_and!; [done | | done].
  intros r c Hr Hc. apply Hsub, traceRoots_marked. by exists r.
Qed.

End Marking.

(** ** Marking misses nothing *)

Section MarkingComplete.

Context (h : gmap positive JSObject) (nh : NativeHeap).
Hypothesis Hwf : wellFormed h nh.

Lemma markStep_mono trc trc' :
  markStep h nh trc = Some trc' → marked trc ⊆ marked trc'.
Proof.
  intros E. destruct (markStep_marked h nh trc Hwf) as (t & E' & M).
  assert (t = trc') as -> by congruence. intros c Hc. apply M. by left.
Qed.

Lemma markStep_closed trc trc' :
  markStep h nh trc = Some trc' →
  closedMarking h nh (marked trc) → marked trc' = marked trc.
Proof.
  intros E Hclosed. destruct (markStep_marked h nh trc Hwf) as (t & E' & M).
  assert (t = trc') as -> by congruence. apply set_eq. intros d. rewrite M. split; [|by left].
  intros [?|(c & obj & Hc & Hobj & Hd)]; [done|]. by eapply Hclosed.
Qed.

Lemma markStep_progress trc trc' :
  markStep h nh trc = Some trc' →
  closedMarking h nh (marked trc')
  ∨ (size (marked trc ∩ dom h) < size (marked trc' ∩ dom h))%nat.
Proof.
  intros E. pose proof (markStep_mono trc trc' E) as Hmono.
  destruct (markStep_marked h nh trc Hwf) as (t & E' & M).
  assert (t = trc') as -> by congruence.
  destruct (decide (marked trc' ∩ dom h ⊆ marked trc ∩ dom h)) as [Hsame|Hgrew].
  - left. intros c obj d Hc Hobj Hd. apply M. right. exists c, obj.
    split_and!; [|done..].
    assert (c ∈ marked trc' ∩ dom h) as Hin.
    { apply elem_of_intersection. split; [done|]. by apply elem_of_dom. }
    apply Hsame in Hin. by apply elem_of_intersection in Hin as [? _].
  - right. apply subset_size. split; [|done].
    intros c [Hc Hd]%elem_of_intersection. apply elem_of_intersection.
    split; [by apply Hmono | done].
Qed.

Lemma markLoop_closed rounds : ∀ trc,
  closedMarking h nh (marked trc) →
  ∃ trc', markLoop rounds h nh trc = Some trc' ∧ marked trc' = marked trc.
Proof.
  induction rounds as [|rounds IH]; intros trc Hclosed; simpl.
  - by exists trc.
  - destruct (markStep_marked h nh trc Hwf) as (t & E & _).
    rewrite E. simpl.
    pose proof (markStep_closed trc t E Hclosed) as Heq.
    destruct (IH t) as (trc' & E' & Heq'); [by rewrite Heq|].
    exists trc'. split; [done|]. by rewrite Heq'.
Qed.

Lemma markLoop_progress rounds : ∀ trc,
  ∃ trc', markLoop rounds h nh trc = Some trc'
    ∧ (closedMarking h nh (marked trc')
       ∨ (size (marked trc ∩ dom h) + rounds ≤ size (marked trc' ∩ dom h))%nat).
Proof.
  induction rounds as [|rounds IH]; intros trc; simpl.
  - exists trc. split; [done|]. right. lia.
  - destruct (markStep_marked h nh trc Hwf) as (t & E & _).
    rewrite E. simpl.
    destruct (markStep_progress trc t E) as [Hclosed|Hgrew].
    + destruct (markLoop_closed rounds t Hclosed) as (trc' & E' & Heq).
      exists trc'. split; [done|]. left. by rewrite Heq.
    + destruct (IH t) as (trc' & E' & [Hclosed|Hsize]).
      * exists trc'. split; [done|]. by left.
      * exists trc'. split; [done|]. right. lia.
Qed.

(** One round for each object of the heap is enough. *)
Lemma markLoop_size_closed trc trc' :
  markLoop (size h) h nh trc = Some trc' → closedMarking h nh (marked trc').
Proof.
  intros E.
  destruct (markLoop_progress (size h) trc) as (t & E' & Hor).
  assert (t = trc') as -> by congruence.
  destruct Hor as [Hclosed|Hsize]; [done|].
  assert (Hbound : (size (marked trc' ∩ dom h) ≤ size h)%nat).
  { rewrite <- (size_dom (D := gset positive) h). apply subseteq_size.
    intros c [_ ?]%elem_of_intersection. done. }
  assert (Hnone : marked trc ∩ dom h = ∅).
  { apply leibniz_equiv, size_empty_iff. lia. }
  assert (Hclosed : closedMarking h nh (marked trc)).
  { intros c obj d Hc Hobj _. exfalso.
    assert (c ∈ marked trc ∩ dom h) as Hin.
    { apply elem_of_intersection. split; [done|]. by apply elem_of_dom. }
    rewrite Hnone in Hin. by apply not_elem_of_empty in Hin. }
  destruct (markLoop_closed (size h) trc Hclosed) as (t & E'' & Heq).
  assert (t = trc') as -> by congruence. by rewrite Heq.
Qed.

End MarkingComplete.

(** The marking phase marks exactly the cells some trace path leads to, so a
    collection keeps every reachable object. *)
Lemma mark_complete rt trc :
  wellFormed (gcHeap rt) (nativeHeap rt) →
  mark rt = Some trc → ∀ c, reachable rt c → c ∈ marked trc.
Proof.
  intros Hwf Hmark c Hc.
  pose proof (markLoop_size_closed _ _ Hwf _ _ Hmark) as Hclosed.
  destruct (mark_spec rt Hwf) as (t & E & Hroots & _).
  assert (t = trc) as -> by congruence.
  induction Hc as [r c Hr Hc | c obj d _ IH Hobj Hd].
  - by eapply Hroots.
  - by eapply Hclosed.
Qed.

(** ** Sweeping *)

Section Sweeping.

Lemma nonNull_true p : p ≠ nullptr → nonNull p = true.
Proof. intros Hp. unfold nonNull. by destruct (N.eqb_spec p nullptr). Qed.

Lemma ownedPtr_Some obj p :
  ownedPtr obj = Some p
  ↔ clasp obj = CustomClass ∧ CustomObject.ownedBox obj = Some p ∧ p ≠ nullptr.
Proof.
  unfold ownedPtr, nonNull. destruct (clasp obj); [naive_solver|].
  destruct (CustomObject.ownedBox obj) as [b|]; simpl; [|naive_solver].
  destruct (N.eqb_spec b nullptr); naive_solver.
Qed.

Lemma finalizeObject_owned nh obj :
  (clasp obj = CustomClass → ∃ o, CustomObject.ownedBox obj = Some o) →
  (∀ p, ownedPtr obj = Some p → is_Some (nh !! p)) →
  finalizeObject nh obj
  = Some (from_option (λ p, delete p nh) nh (ownedPtr obj)).
Proof.
  intros Hread Hlive. unfold finalizeObject.
  destruct (clasp obj) eqn:Hclasp.
  - unfold ownedPtr. by rewrite Hclasp.
  - destruct (Hread eq_refl) as [o Ho].
    rewrite (finalize_owned nh obj o Ho). unfold delete_.
    destruct (nonNull o) eqn:Hnn.
    + assert (Hp : ownedPtr obj = Some o).
      { unfold ownedPtr. rewrite Hclasp, Ho. simpl. by rewrite Hnn. }
      destruct (Hlive o Hp) as [box Hbox]. by rewrite Hbox, Hp.
    + assert (Hp : ownedPtr obj = None).
      { unfold ownedPtr. rewrite Hclasp, Ho. simpl. by rewrite Hnn. }
      by rewrite Hp.
Qed.

(** Finalizing a list of dead objects releases exactly the boxes they own. *)
Lemma runFinalizers_spec dead : ∀ nh : NativeHeap,
  (∀ entry, entry ∈ dead → clasp entry.2 = CustomClass →
            ∃ o, CustomObject.ownedBox entry.2 = Some o) →
  NoDup (ownedBy dead) →
  (∀ p, p ∈ ownedBy dead → is_Some (nh !! p)) →
  ∃ nh', runFinalizers dead nh = Some nh'
         ∧ ∀ q, nh' !! q = if decide (q ∈ ownedBy dead) then None else nh !! q.
Proof.
  induction dead as [|[c obj] rest IH]; intros nh Hread Hnodup Hlive.
  - exists nh. split; [done|]. intros q. rewrite decide_False; [done|].
    apply not_elem_of_nil.
  - simpl. rewrite finalizeObject_owned; cycle 1.
    { intros Hc. apply (Hread (c, obj)); [apply list_elem_of_here | done]. }
    { intros p Hp. apply Hlive. unfold ownedBy. simpl. rewrite Hp.
      apply list_elem_of_here. }
    simpl. unfold ownedBy in *. simpl in *.
    destruct (ownedPtr obj) as [p|] eqn:Hp; simpl in *.
    + apply NoDup_cons in Hnodup as [Hnotin Hnodup].
      destruct (IH (delete p nh)) as (nh' & E & L); [| done | |].
      { intros e He. apply Hread. by apply list_elem_of_further. }
      { intros q Hq. rewrite lookup_delete_ne by (intros ->; done).
        apply Hlive. by apply list_elem_of_further. }
      exists nh'. split; [done|]. intros q. rewrite L.
      destruct (decide (q = p)) as [->|Hne].
      * rewrite decide_False by done.
        rewrite decide_True by apply list_elem_of_here.
        apply lookup_delete_eq.
      * rewrite lookup_delete_ne by done.
        destruct (decide (q ∈ omap _ rest)) as [Hin|Hnin].
        -- rewrite decide_True; [done|]. by apply list_elem_of_further.
        -- rewrite decide_False; [done|]. by intros [?|?]%elem_of_cons.
    + destruct (IH nh) as (nh' & E & L); [| done | done |].
      { intros e He. apply Hread. by apply list_elem_of_further. }
      by exists nh'.
Qed.

Lemma elem_of_deadObjects h (m : gset Cell) c obj :
  (c, obj) ∈ deadObjects h m ↔ (c ∉ m) ∧ h !! c = Some obj.
Proof.
  unfold deadObjects. rewrite list_elem_of_filter, elem_of_map_to_list. done.
Qed.

Lemma deadObjects_NoDup h (m : gset Cell) : NoDup (deadObjects h m).*1.
Proof.
  unfold deadObjects.
  eapply sublist_NoDup; [apply (NoDup_fst_map_to_list h)|].
  apply fmap_sublist, sublist_filter.
Qed.

Lemma elem_of_ownedBy entries p :
  p ∈ ownedBy entries ↔ ∃ c obj, (c, obj) ∈ entries ∧ ownedPtr obj = Some p.
Proof.
  unfold ownedBy. rewrite list_elem_of_omap. split.
  - intros ([c obj] & Hin & Hp). by exists c, obj.
  - intros (c & obj & Hin & Hp). by exists (c, obj).
Qed.

Lemma ownedBy_NoDup entries :
  NoDup entries.*1 →
  (∀ c1 c2 obj1 obj2 p, (c1, obj1) ∈ entries → (c2, obj2) ∈ entries →
     ownedPtr obj1 = Some p → ownedPtr obj2 = Some p → c1 = c2) →
  NoDup (ownedBy entries).
Proof.
  induction entries as [|[c obj] rest IH]; intros Hkeys Hexcl.
  - constructor.
  - simpl in Hkeys. apply NoDup_cons in Hkeys as [Hc Hkeys].
    assert (Hrest : NoDup (ownedBy rest)).
    { apply IH; [done|]. intros c1 c2 o1 o2 p H1 H2.
      apply Hexcl; by apply list_elem_of_further. }
    unfold ownedBy in *. simpl.
    destruct (ownedPtr obj) as [p|] eqn:Hp; simpl; [|done].
    apply NoDup_cons. split; [|done].
    intros (c' & obj' & Hin & Hp')%elem_of_ownedBy.
    assert (c = c') as <-.
    { eapply Hexcl; [apply list_elem_of_here | by apply list_elem_of_further | done..]. }
    apply Hc. apply list_elem_of_fmap. by exists (c, obj').
Qed.

End Sweeping.

(** ** One collection *)

Section Collection.

Lemma sweep_wellFormed h nh nh' (m : gset Cell) :
  wellFormed h nh →
  (∀ q, nh' !! q = if decide (q ∈ ownedBy (deadObjects h m)) then None else nh !! q) →
  wellFormed (filter (λ entry, entry.1 ∈ m) h) nh'.
Proof.
  intros Hwf Hnh.
  assert (Hsub : ∀ c obj,
    filter (λ entry : positive * JSObject, entry.1 ∈ m) h !! c = Some obj →
    h !! c = Some obj ∧ c ∈ m).
  { intros c obj Hc. by apply map_lookup_filter_Some in Hc as [? ?]. }
  assert (Hkeep : ∀ c obj p, h !! c = Some obj → c ∈ m →
    (ownedPtr obj = Some p ∨ (clasp obj = CustomClass ∧ CustomObject.unownedBox obj = Some p)) →
    nh' !! p = nh !! p).
  { intros c obj p Hc Hm Hp. rewrite Hnh. rewrite decide_False; [done|].
    intros (c' & obj' & [Hdead Hc']%elem_of_deadObjects & Hp')%elem_of_ownedBy.
    destruct Hp as [Hp|[Hcl Hp]].
    - assert (c = c') by (by eapply (wf_exclusive _ _ Hwf c c' obj obj' p)).
      by subst.
    - by eapply (wf_borrowed _ _ Hwf c c' obj obj' p). }
  split.
  - intros c obj [Hc Hm]%Hsub Hclasp.
    destruct (wf_slots _ _ Hwf c obj Hc Hclasp) as (o & u & Ho & Hu & Uo & Uu).
    exists o, u. split_and!; [done | done | |].
    + destruct Uo as [->|Hlive]; [by left|].
      destruct (decide (o = nullptr)) as [->|Hnn]; [by left|].
      right. rewrite (Hkeep c obj o Hc Hm); [done|].
      left. by apply ownedPtr_Some.
    + destruct Uu as [->|Hlive]; [by left|].
      right. rewrite (Hkeep c obj u Hc Hm); [done|]. by right.
  - intros c1 c2 obj1 obj2 p [H1 _]%Hsub [H2 _]%Hsub.
    apply (wf_exclusive _ _ Hwf c1 c2 obj1 obj2 p H1 H2).
  - intros c1 c2 obj1 obj2 u [H1 _]%Hsub [H2 _]%Hsub.
    apply (wf_borrowed _ _ Hwf c1 c2 obj1 obj2 u H1 H2).
Qed.

Lemma JS_GC_spec rt :
  wellFormed (gcHeap rt) (nativeHeap rt) →
  ∃ trc rt', mark rt = Some trc ∧ JS_GC rt = Some rt'
    ∧ collected rt trc rt'
    ∧ (∀ r c, isRoot rt r → c ∈ rootableReferents r → c ∈ marked trc)
    ∧ (∀ c, c ∈ marked trc → reachable rt c)
    ∧ wellFormed (gcHeap rt') (nativeHeap rt').
Proof.
  intros Hwf.
  destruct (mark_spec rt Hwf) as (trc & Hmark & Hroots & Hsound).
  destruct (runFinalizers_spec (deadObjects (gcHeap rt) (marked trc)) (nativeHeap rt))
    as (nh' & Hfin & Hnh).
  { intros [c obj] [_ Hc]%elem_of_deadObjects Hclasp. simpl in *.
    destruct (wf_slots _ _ Hwf c obj Hc Hclasp) as (o & _ & Ho & _). by exists o. }
  { apply ownedBy_NoDup; [apply deadObjects_NoDup|].
    intros c1 c2 obj1 obj2 p [_ H1]%elem_of_deadObjects [_ H2]%elem_of_deadObjects.
    apply (wf_exclusive _ _ Hwf c1 c2 obj1 obj2 p H1 H2). }
  { intros p (c & obj & [_ Hc]%elem_of_deadObjects & Hp)%elem_of_ownedBy.
    apply ownedPtr_Some in Hp as (Hclasp & Ho & Hnn).
    destruct (wf_slots _ _ Hwf c obj Hc Hclasp) as (o & _ & Ho' & _ & [->|Hlive] & _);
      by simplify_eq. }
  eexists trc, _. unfold JS_GC, sweep. rewrite Hmark. simpl. rewrite Hfin. simpl.
  split_and!; [done | done | | done | done |].
  - by unfold collected.
  - simpl. by apply (sweep_wellFormed _ (nativeHeap rt)).
Qed.

Lemma collected_live rt trc rt' c :
  collected rt trc rt' → c ∈ marked trc → gcHeap rt' !! c = gcHeap rt !! c.
Proof.
  intros (Hheap & _) Hc. rewrite Hheap.
  destruct (gcHeap rt !! c) as [obj|] eqn:Hobj.
  - by apply map_lookup_filter_Some.
  - apply map_lookup_filter_None. left. done.
Qed.

Lemma collected_dead rt trc rt' c :
  collected rt trc rt' → c ∉ marked trc → gcHeap rt' !! c = None.
Proof.
  intros (Hheap & _) Hc. rewrite Hheap.
  apply map_lookup_filter_None. right. intros obj _. done.
Qed.

Lemma collected_absent rt trc rt' c :
  collected rt trc rt' → gcHeap rt !! c = None → gcHeap rt' !! c = None.
Proof.
  intros (Hheap & _) Hc. rewrite Hheap.
  apply map_lookup_filter_None. by left.
Qed.

(** A collection keeps exactly the objects some trace path leads to. *)
Lemma JS_GC_keeps_reachable rt :
  wellFormed (gcHeap rt) (nativeHeap rt) →
  ∃ rt', JS_GC rt = Some rt'
    ∧ (∀ c, reachable rt c → gcHeap rt' !! c = gcHeap rt !! c)
    ∧ (∀ c, ¬ reachable rt c → gcHeap rt' !! c = None).
Proof.
  intros Hwf.
  destruct (JS_GC_spec rt Hwf) as (trc & rt' & Hmark & Hgc & Hcol & _ & Hsound & _).
  exists rt'. split_and!; [done | |].
  - intros c Hc. eapply collected_live; [done|]. by eapply mark_complete.
  - intros c Hc. eapply collected_dead; [done|]. intros Hm. by apply Hc, Hsound.
Qed.

End Collection.

(** ** Collections in a row *)

Section Collections.

Lemma count_occ_absent (l : list Cell) c : c ∉ l → count_occ Pos.eq_dec l c = 0.
Proof.
  induction l as [|x l IH]; simpl; [done|].
  intros Hc. apply not_elem_of_cons in Hc as [Hne Hc].
  destruct (Pos.eq_dec x c); [by subst|]. by apply IH.
Qed.

Lemma count_occ_once (l : list Cell) c :
  NoDup l → c ∈ l → count_occ Pos.eq_dec l c = 1.
Proof.
  induction l as [|x l IH]; simpl; intros Hnd Hc.
  - by apply elem_of_nil in Hc.
  - apply NoDup_cons in Hnd as [Hx Hnd].
    destruct (Pos.eq_dec x c) as [->|Hne].
    + by rewrite count_occ_absent.
    + apply elem_of_cons in Hc as [->|Hc]; [done|]. by apply IH.
Qed.

Lemma collected_unowned rt trc rt' p :
  collected rt trc rt' → unowned (gcHeap rt) p →
  nativeHeap rt' !! p = nativeHeap rt !! p.
Proof.
  intros (_ & Hnh & _) Hp. rewrite Hnh, decide_False; [done|].
  intros (c & obj & [_ Hc]%elem_of_deadObjects & Ho)%elem_of_ownedBy.
  by apply (Hp c obj).
Qed.

Lemma collected_not_finalized rt trc rt' c :
  collected rt trc rt' → gcHeap rt !! c = None →
  timesFinalized rt' c = timesFinalized rt c.
Proof.
  intros (_ & _ & Hfin & _) Hc. unfold timesFinalized.
  rewrite Hfin, count_occ_app, (count_occ_absent (_.*1)); [lia|].
  intros ([c' obj] & -> & [_ Hin]%elem_of_deadObjects)%list_elem_of_fmap.
  simpl in Hc. by rewrite Hc in Hin.
Qed.

Lemma collected_finalized_once rt trc rt' c :
  collected rt trc rt' → is_Some (gcHeap rt !! c) → c ∉ marked trc →
  timesFinalized rt' c = S (timesFinalized rt c).
Proof.
  intros (_ & _ & Hfin & _) [obj Hc] Hdead. unfold timesFinalized.
  rewrite Hfin, count_occ_app, (count_occ_once (_.*1)); [lia | apply deadObjects_NoDup |].
  apply list_elem_of_fmap. exists (c, obj). split; [done|].
  by apply elem_of_deadObjects.
Qed.

Lemma collected_isRoot rt trc rt' r :
  collected rt trc rt' → isRoot rt' r ↔ isRoot rt r.
Proof.
  intros (_ & _ & _ & Hstack & Hpers & _). unfold isRoot. by rewrite Hstack, Hpers.
Qed.

Lemma unowned_subseteq (h h' : gmap positive JSObject) p :
  h' ⊆ h → unowned h p → unowned h' p.
Proof.
  intros Hsub Hp c obj Hc. apply (Hp c obj). by eapply lookup_weaken.
Qed.

(** Any number of collections in a row, from a runtime that follows the
    ownership discipline: all succeed, the roots stay as they are and what
    they refer to stays in the heap, no finalize hook runs for a cell that
    holds no object, and a box that no object owns is left as it is. *)
Lemma collections_spec n : ∀ rt,
  wellFormed (gcHeap rt) (nativeHeap rt) →
  ∃ rt', collections n rt = Some rt'
    ∧ wellFormed (gcHeap rt') (nativeHeap rt')
    ∧ gcHeap rt' ⊆ gcHeap rt
    ∧ stackRoots rt' = stackRoots rt
    ∧ persistentRoots rt' = persistentRoots rt
    ∧ (∀ r c, isRoot rt r → c ∈ rootableReferents r →
              gcHeap rt' !! c = gcHeap rt !! c)
    ∧ (∀ c, gcHeap rt !! c = None → timesFinalized rt' c = timesFinalized rt c)
    ∧ (∀ p, unowned (gcHeap rt) p → nativeHeap rt' !! p = nativeHeap rt !! p).
Proof.
  induction n as [|n IH]; intros rt Hwf; simpl.
  - exists rt. split_and!; done.
  - destruct (JS_GC_spec rt Hwf) as (trc & rt1 & _ & Hgc & Hcol & Hroots & _ & Hwf1).
    rewrite Hgc. simpl.
    destruct (IH rt1 Hwf1) as (rt' & E & Hwf' & Hsub & Hst & Hpe & Hkeep & Hfin & Hun).
    assert (Hsub1 : gcHeap rt1 ⊆ gcHeap rt).
    { destruct Hcol as (-> & _). apply map_filter_subseteq. }
    exists rt'. split_and!; [done | done | | | | | |].
    + by etrans.
    + rewrite Hst. by destruct Hcol as (_ & _ & _ & -> & _).
    + rewrite Hpe. by destruct Hcol as (_ & _ & _ & _ & -> & _).
    + intros r c Hr Hc.
      rewrite (Hkeep r c); [| by apply (collected_isRoot rt trc rt1) | done].
      eapply collected_live; [done|]. by eapply Hroots.
    + intros c Hc. rewrite Hfin by (by eapply collected_absent).
      by eapply collected_not_finalized.
    + intros p Hp. rewrite Hun by (by eapply unowned_subseteq).
      by eapply collected_unowned.
Qed.

End Collections.

(** ** Finalization *)

(** C3: take a CustomObject that holds an owned box and an unowned box, in
    a runtime that follows the ownership discipline, and let no trace path
    reach it.  Then however many collections are forced, all of them succeed
    and afterwards the finalize hook has run for the object exactly once, the
    object is gone, the owned box is released and the unowned box is as it
    was. *)
Theorem finalize_runs_once_and_releases_owned_only
    (rt : Runtime) (c : Cell) (obj : JSObject) (o u : Ptr) (n : nat) :
  wellFormed (gcHeap rt) (nativeHeap rt) →
  gcHeap rt !! c = Some obj → clasp obj = CustomClass →
  CustomObject.ownedBox obj = Some o → o ≠ nullptr →
  CustomObject.unownedBox obj = Some u → u ≠ nullptr →
  ¬ reachable rt c →
  ∃ rt', collections (S n) rt = Some rt'
    ∧ timesFinalized rt' c = S (timesFinalized rt c)
    ∧ gcHeap rt' !! c = None
    ∧ nativeHeap rt' !! o = None
    ∧ is_Some (nativeHeap rt' !! u)
    ∧ nativeHeap rt' !! u = nativeHeap rt !! u.
Proof.
  intros Hwf Hc Hclasp Ho Honn Hu Hunn Hdead. simpl.
  destruct (JS_GC_spec rt Hwf) as (trc & rt1 & _ & Hgc & Hcol & _ & Hsound & Hwf1).
  rewrite Hgc. simpl.
  assert (Hunmarked : c ∉ marked trc) by (intros Hm; by apply Hdead, Hsound).
  assert (Howned : ownedPtr obj = Some o) by (by apply ownedPtr_Some).
  assert (Hsub1 : gcHeap rt1 ⊆ gcHeap rt).
  { destruct Hcol as (-> & _). apply map_filter_subseteq. }
  assert (Hgone : gcHeap rt1 !! c = None) by (by eapply collected_dead).
  assert (Hu_unowned : unowned (gcHeap rt) u).
  { intros c2 obj2 Hc2. by eapply (wf_borrowed _ _ Hwf c c2 obj obj2 u). }
  assert (Ho_unowned : unowned (gcHeap rt1) o).
  { intros c2 obj2 Hc2 Ho2.
    assert (c2 = c) as ->.
    { eapply (wf_exclusive _ _ Hwf c2 c obj2 obj o); [|done..].
      by eapply lookup_weaken. }
    by rewrite Hgone in Hc2. }
  assert (Ho1 : nativeHeap rt1 !! o = None).
  { destruct Hcol as (_ & Hnh & _). rewrite Hnh, decide_True; [done|].
    apply elem_of_ownedBy. exists c, obj. split; [|done].
    by apply elem_of_deadObjects. }
  destruct (collections_spec n rt1 Hwf1)
    as (rt' & E & _ & Hsub & _ & _ & _ & Hfin & Hun).
  exists rt'. split_and!; [done | | | | |].
  - rewrite (Hfin c Hgone). by eapply collected_finalized_once.
  - eapply lookup_weaken_None; done.
  - by rewrite (Hun o Ho_unowned).
  - rewrite (Hun u) by (by eapply unowned_subseteq).
    rewrite (collected_unowned rt trc rt1 u Hcol Hu_unowned).
    destruct (wf_slots _ _ Hwf c obj Hc Hclasp) as (? & u' & _ & Hu' & _ & [?|?]);
      by simplify_eq.
  - rewrite (Hun u) by (by eapply unowned_subseteq).
    by eapply collected_unowned.
Qed.

(** ** Soundness of the checkers *)

Section Checkers.

Lemma forallb_elem_of {A} (f : A → bool) (l : list A) x :
  forallb f l = true → x ∈ l → f x = true.
Proof.
  intros Hall Hx. apply (proj1 (forallb_forall f l) Hall). by apply list_elem_of_In.
Qed.

Lemma usableb_usable nh p : usableb nh p = true → usable nh p.
Proof.
  unfold usableb, usable, nonNull. intros [Hnull|Hlive]%orb_prop.
  - left. apply negb_true_iff, negb_false_iff in Hnull. by apply N.eqb_eq.
  - right. by apply bool_decide_eq_true in Hlive.
Qed.

Lemma checkWellFormed_sound h nh :
  checkWellFormed h nh = true → wellFormed h nh.
Proof.
  unfold checkWellFormed. intros [Hslots Hpairs]%andb_prop.
  assert (Hcompat : ∀ c1 c2 obj1 obj2, h !! c1 = Some obj1 → h !! c2 = Some obj2 →
            compatible (c1, obj1) (c2, obj2) = true).
  { intros c1 c2 obj1 obj2 H1 H2.
    apply (forallb_elem_of _ (map_to_list h)); [|by apply elem_of_map_to_list].
    apply (forallb_elem_of _ _ (c1, obj1) Hpairs). by apply elem_of_map_to_list. }
  split.
  - intros c obj Hc Hclasp.
    pose proof (forallb_elem_of _ _ (c, obj) Hslots) as Hok.
    rewrite elem_of_map_to_list in Hok. specialize (Hok Hc).
    unfold slotsOk in Hok. simpl in Hok. rewrite Hclasp in Hok.
    destruct (CustomObject.ownedBox obj) as [o|]; [|done].
    destruct (CustomObject.unownedBox obj) as [u|]; [|done].
    apply andb_prop in Hok as [Ho Hu].
    exists o, u. split_and!; [done | done | by apply usableb_usable..].
  - intros c1 c2 obj1 obj2 p H1 H2 Hp1 Hp2.
    pose proof (Hcompat c1 c2 obj1 obj2 H1 H2) as Hc.
    unfold compatible in Hc. simpl in Hc. rewrite Hp2 in Hc.
    apply andb_prop in Hc as [[Heq|Hne]%orb_prop _].
    + by apply bool_decide_eq_true in Heq.
    + apply negb_true_iff, bool_decide_eq_false in Hne. done.
  - intros c1 c2 obj1 obj2 u H1 H2 Hclasp Hu Hp2.
    pose proof (Hcompat c1 c2 obj1 obj2 H1 H2) as Hc.
    unfold compatible in Hc. simpl in Hc. rewrite Hp2 in Hc.
    apply andb_prop in Hc as [_ Hb].
    apply negb_true_iff, bool_decide_eq_false in Hb.
    apply Hb. unfold borrowedPtr. by rewrite Hclasp.
Qed.

Lemma closedUnder_sound rt (cells : gset Cell) :
  closedUnder rt cells = true → ∀ d, reachable rt d → d ∈ cells.
Proof.
  unfold closedUnder. intros [Hroots Hedges]%andb_prop d Hd.
  induction Hd as [r c Hr Hc | c obj d Hreach IH Hobj Hd].
  - assert (Hnode : ∃ addr, (addr, r) ∈ stackRoots rt ++ map_to_list (persistentRoots rt)).
    { destruct Hr as [[addr Hin]|[addr Hin]]; exists addr; apply elem_of_app.
      - by left.
      - right. by apply elem_of_map_to_list. }
    destruct Hnode as [addr Hin].
    pose proof (forallb_elem_of _ _ _ Hroots Hin) as Hsub.
    apply bool_decide_eq_true in Hsub. simpl in Hsub. by apply Hsub.
  - pose proof (forallb_elem_of _ _ (c, obj) Hedges) as Hsub.
    rewrite elem_of_map_to_list in Hsub. specialize (Hsub Hobj).
    apply orb_prop in Hsub as [Hout|Hsub].
    + by apply bool_decide_eq_true in Hout.
    + apply bool_decide_eq_true in Hsub. by apply Hsub.
Qed.

End Checkers.

Lemma finalize_runs_once_and_releases_owned_only_witness :
  ∃ rt', collections 3 Sample.runtime = Some rt'
    ∧ timesFinalized rt' 3 = S (timesFinalized Sample.runtime 3)
    ∧ gcHeap rt' !! 3%positive = None
    ∧ nativeHeap rt' !! 261%N = None
    ∧ is_Some (nativeHeap rt' !! 3%N)
    ∧ nativeHeap rt' !! 3%N = nativeHeap Sample.runtime !! 3%N.
Proof.
  apply (finalize_runs_once_and_releases_owned_only
           Sample.runtime 3 (CustomObject.initSlots 261 3) 261 3 2).
  - apply checkWellFormed_sound. vm_compute. reflexivity.
  - vm_compute. reflexivity.
  - reflexivity.
  - reflexivity.
  - discriminate.
  - reflexivity.
  - discriminate.
  - intros Hreach.
    apply (closedUnder_sound Sample.runtime {[ 2%positive ]}) in Hreach.
    + apply elem_of_singleton in Hreach. discriminate.
    + vm_compute. reflexivity.
Defined.

(** CustomObjectExample itself: whenever the global and the object are
    created, the program ends with the finalize hook of the object (the
    second object allocated, at cell 3) run once, the box from [new] released
    and the static box still there. *)
Lemma CustomObjectExample_collects_the_object ch :
  globalOk ch = true → objectOk ch = true →
  ∃ rt, main false ch = Done (true, rt)
    ∧ finalized rt = [3%positive]
    ∧ nativeHeap rt = {[ eternalBox := defaultBox ]}.
Proof.
  destruct ch as [a b c d e f]. simpl. intros -> ->.
  destruct a, b, c, e; (eexists; split_and!; vm_compute; reflexivity).
Qed.

(** ** Persistent roots *)

Section PersistentRoots.

(** What is reachable once [reset] has run was reachable from the other
    roots before. *)
Lemma reachable_after_reset rt root d :
  reachable (PersistentRooted_reset root rt) d → reachableElsewhere rt root d.
Proof.
  assert (Hroot : ∀ r, isRoot (PersistentRooted_reset root rt) r →
                       isOtherRoot rt root r).
  { intros r. unfold PersistentRooted_reset, isRoot, isOtherRoot.
    destruct (persistentRoots rt !! root) as [r0|] eqn:Hr0; simpl.
    - intros [Hst|[addr [Hne Hin]%lookup_delete_Some]]; [by left|].
      right. by exists addr.
    - intros [Hst|[addr Hin]]; [by left|].
      right. exists addr. split; [|done]. intros ->. by rewrite Hr0 in Hin. }
  assert (Hheaps : gcHeap (PersistentRooted_reset root rt) = gcHeap rt
                   ∧ nativeHeap (PersistentRooted_reset root rt) = nativeHeap rt).
  { unfold PersistentRooted_reset. by destruct (persistentRoots rt !! root). }
  destruct Hheaps as [Hh Hnh].
  intros Hd. induction Hd as [r c Hr Hc | c obj d _ IH Hobj Hd].
  - eapply elsewhere_root; [by apply Hroot | done].
  - eapply (elsewhere_edge rt root c obj d); [done | by rewrite <- Hh | by rewrite <- Hnh].
Qed.

Lemma reachableElsewhere_withoutRoot rt root d :
  reachableElsewhere rt root d → reachable (withoutRoot root rt) d.
Proof.
  intros Hd. induction Hd as [r c Hr Hc | c obj d _ IH Hobj Hd].
  - eapply reachable_root; [|done]. unfold isRoot, withoutRoot. simpl.
    destruct Hr as [Hst|[addr [Hne Hin]]]; [by left|].
    right. exists addr. by apply lookup_delete_Some.
  - by eapply (reachable_edge (withoutRoot root rt) c obj d).
Qed.

(** A collection releases boxes and reclaims objects, so it adds no trace
    path. *)
Lemma collected_objectReferents_subseteq rt trc rt1 obj :
  collected rt trc rt1 →
  objectReferents (nativeHeap rt1) obj ⊆ objectReferents (nativeHeap rt) obj.
Proof.
  intros (_ & Hnh & _).
  assert (Hvia : ∀ p, referentsVia (nativeHeap rt1) p ⊆ referentsVia (nativeHeap rt) p).
  { intros p. unfold referentsVia. destruct (nonNull p); [|done].
    rewrite Hnh. case_decide; simpl; [apply empty_subseteq | done]. }
  assert (Hslot : ∀ o, referentsViaSlot (nativeHeap rt1) o
                       ⊆ referentsViaSlot (nativeHeap rt) o).
  { intros [p|]; simpl; [apply Hvia | done]. }
  unfold objectReferents. destruct (clasp obj); [done|].
  apply union_mono_l, union_mono; apply Hslot.
Qed.

Lemma collected_reachableElsewhere rt trc rt1 root d :
  collected rt trc rt1 →
  reachableElsewhere rt1 root d → reachableElsewhere rt root d.
Proof.
  intros Hcol Hd.
  pose proof (λ obj, collected_objectReferents_subseteq rt trc rt1 obj Hcol) as Hsub.
  destruct Hcol as (Hheap & _ & _ & Hst & Hpe & _).
  induction Hd as [r c Hr Hc | c obj d _ IH Hobj Hd].
  - eapply elsewhere_root; [|done]. unfold isOtherRoot in *.
    by rewrite <- Hst, <- Hpe.
  - eapply (elsewhere_edge rt root c obj d); [done | | by apply (Hsub obj)].
    rewrite Hheap in Hobj. by apply map_lookup_filter_Some in Hobj as [? _].
Qed.

Lemma collections_reachableElsewhere n root d : ∀ rt rt',
  wellFormed (gcHeap rt) (nativeHeap rt) →
  collections n rt = Some rt' →
  reachableElsewhere rt' root d → reachableElsewhere rt root d.
Proof.
  induction n as [|n IH]; intros rt rt' Hwf; simpl.
  - by intros [= <-].
  - destruct (JS_GC_spec rt Hwf) as (trc & rt1 & _ & Hgc & Hcol & _ & _ & Hwf1).
    rewrite Hgc. simpl. intros E Hd.
    eapply collected_reachableElsewhere; [done|]. by eapply IH.
Qed.

End PersistentRoots.

(** C6: in a running engine that follows the ownership discipline, init
    registers the persistent root with the value it is given.  From then on,
    however many collections are forced, the root is still registered and
    what it refers to is in the heap as it was.  When the root is then
    reset, a referent that no trace path from the other roots (the stack
    roots and the persistent roots at other addresses) leads to is gone
    after the next collection, and the root is no longer registered. *)
Theorem persistent_root_keeps_referent_alive
    (rt : Runtime) (root : Ptr) (r : Rootable) (c : Cell) :
  phase rt = Running →
  wellFormed (gcHeap rt) (nativeHeap rt) →
  c ∈ rootableReferents r →
  ∃ rt1, PersistentRooted_init root r rt = Done rt1
    ∧ ∀ n, ∃ rt', collections n rt1 = Some rt'
        ∧ persistentRoots rt' !! root = Some r
        ∧ gcHeap rt' !! c = gcHeap rt !! c
        ∧ (¬ reachableElsewhere rt' root c →
           ∃ rt'', JS_GC (PersistentRooted_reset root rt') = Some rt''
             ∧ persistentRoots rt'' !! root = None
             ∧ gcHeap rt'' !! c = None).
Proof.
  intros Hrun Hwf Hc.
  unfold PersistentRooted_init. rewrite Hrun. simpl.
  eexists. split; [reflexivity|].
  set (rt1 := logEvent _ _).
  assert (Hwf1 : wellFormed (gcHeap rt1) (nativeHeap rt1)) by done.
  assert (Hreg1 : persistentRoots rt1 !! root = Some r).
  { unfold rt1. simpl. apply lookup_insert_eq. }
  intros n.
  destruct (collections_spec n rt1 Hwf1) as (rt' & E & Hwf' & _ & _ & Hpe & Hkeep & _).
  assert (Hreg' : persistentRoots rt' !! root = Some r) by (by rewrite Hpe).
  exists rt'. split_and!; [done | done | |].
  - rewrite (Hkeep r c); [done | | done]. right. by exists root.
  - intros Hdead.
    assert (Hwf'' : wellFormed (gcHeap (PersistentRooted_reset root rt'))
                               (nativeHeap (PersistentRooted_reset root rt'))).
    { unfold PersistentRooted_reset. by rewrite Hreg'. }
    destruct (JS_GC_spec _ Hwf'') as (trc & rt'' & _ & Hgc & Hcol & _ & Hsound & _).
    exists rt''. split_and!; [done | |].
    + destruct Hcol as (_ & _ & _ & _ & -> & _).
      unfold PersistentRooted_reset. rewrite Hreg'. simpl. apply lookup_delete_eq.
    + eapply collected_dead; [done|]. intros Hm.
      by apply Hdead, reachable_after_reset, Hsound.
Qed.

Lemma persistent_root_keeps_referent_alive_witness :
  ∃ rt1 rt' rt'',
    PersistentRooted_init 1 (RootObject (Some 4%positive)) Sample.runtime = Done rt1
    ∧ collections 3 rt1 = Some rt'
    ∧ persistentRoots rt' !! 1%N = Some (RootObject (Some 4%positive))
    ∧ gcHeap rt' !! 4%positive = gcHeap Sample.runtime !! 4%positive
    ∧ JS_GC (PersistentRooted_reset 1 rt') = Some rt''
    ∧ persistentRoots rt'' !! 1%N = None
    ∧ gcHeap rt'' !! 4%positive = None.
Proof.
  assert (Hwf : wellFormed (gcHeap Sample.runtime) (nativeHeap Sample.runtime)).
  { apply checkWellFormed_sound. vm_compute. reflexivity. }
  destruct (persistent_root_keeps_referent_alive
              Sample.runtime 1 (RootObject (Some 4%positive)) 4)
    as (rt1 & Hinit & Hafter).
  - reflexivity.
  - exact Hwf.
  - simpl. apply elem_of_union_l, elem_of_singleton. reflexivity.
  - destruct (Hafter 3) as (rt' & E & Hreg & Hkeep & Hreset).
    destruct Hreset as (rt'' & Hgc & Hgone & Hdead).
    + intros Hreach.
      apply (collections_reachableElsewhere 3 1 4 rt1 rt') in Hreach; [|  | exact E].
      * apply reachableElsewhere_withoutRoot in Hreach.
        unfold PersistentRooted_init in Hinit. simpl in Hinit.
        injection Hinit as <-.
        apply (closedUnder_sound _ {[ 2%positive ]}) in Hreach.
        -- apply elem_of_singleton in Hreach. discriminate.
        -- vm_compute. reflexivity.
      * unfold PersistentRooted_init in Hinit. simpl in Hinit.
        injection Hinit as <-. exact Hwf.
    + exists rt1, rt', rt''. split_and!; assumption.
Defined.

(** ** The global persistent roots of the example *)

Section GlobalRoots.

Lemma GlobalRootExample_running ch rt :
  phase rt = Running →
  ∃ rt', GlobalRootExample ch rt = Done (true, rt')
    ∧ persistentRoots rt' !! globalPtrSafe = None
    ∧ persistentRoots rt' !! globalMaybeSafe = None
    ∧ phase rt' = Running
    ∧ events rt'
      = events rt ++ [Registered globalPtrSafe; Registered globalMaybeSafe;
                      Deregistered globalMaybeSafe; Deregistered globalPtrSafe].
Proof.
  intros Hrun. unfold GlobalRootExample, MakeUnique.
  destruct (globalPtrOk ch); simpl;
    unfold Maybe_emplace, Maybe_reset, PersistentRooted_init; simpl;
    rewrite Hrun; simpl; rewrite Hrun; simpl;
    unfold PersistentRooted_reset; simpl;
    rewrite lookup_insert_eq; simpl;
    rewrite lookup_delete_ne by done;
    rewrite lookup_insert_ne by done;
    rewrite lookup_insert_eq; simpl;
    (eexists; split_and!;
      [ reflexivity
      | simpl; apply lookup_delete_eq
      | simpl; rewrite lookup_delete_ne by done; apply lookup_delete_eq
      | exact Hrun
      | simpl; by rewrite <- !app_assoc ]).
Qed.

Lemma GlobalRootExample_not_running ch rt :
  phase rt ≠ Running → GlobalRootExample ch rt = Abort NotRunning.
Proof.
  intros Hrun. unfold GlobalRootExample, MakeUnique.
  destruct (globalPtrOk ch); simpl;
    unfold PersistentRooted_init; simpl; by rewrite decide_False.
Qed.

End GlobalRoots.

(** C7: the global persistent roots are empty placeholders until the engine
    runs: they are in no root set before startup, GlobalRootExample cannot
    register them unless the engine is running, and whenever it runs it has
    reset both before it returns.  In every execution of the program, for
    any outcome of its allocations, no violation is detected, persistent
    roots are registered only while the engine runs, and none is registered
    when the engine shuts down. *)
Theorem global_roots_follow_protocol :
  persistentRoots initialRuntime = ∅
  ∧ (∀ ch rt, phase rt ≠ Running → GlobalRootExample ch rt = Abort NotRunning)
  ∧ (∀ ch rt, phase rt = Running →
       ∃ rt', GlobalRootExample ch rt = Done (true, rt')
         ∧ persistentRoots rt' !! globalPtrSafe = None
         ∧ persistentRoots rt' !! globalMaybeSafe = None
         ∧ events rt'
           = events rt ++ [Registered globalPtrSafe; Registered globalMaybeSafe;
                           Deregistered globalMaybeSafe; Deregistered globalPtrSafe])
  ∧ (∀ shutdownOnFailure ch, ∃ ok rt,
       main shutdownOnFailure ch = Done (ok, rt)
       ∧ respectsProtocol (events rt) = true
       ∧ persistentRoots rt = ∅
       ∧ (ok = true → phase rt = ShutDown)).
Proof.
  split_and!.
  - reflexivity.
  - apply GlobalRootExample_not_running.
  - intros ch rt Hrun.
    destruct (GlobalRootExample_running ch rt Hrun) as (rt' & E & H1 & H2 & _ & Hev).
    by exists rt'.
  - intros flag [a b c d e f].
    destruct flag, a, b, c, d, e, f;
      (eexists _, _; split_and!;
        [ vm_compute; reflexivity
        | vm_compute; reflexivity
        | vm_compute; reflexivity
        | try (intros _; vm_compute; reflexivity); try discriminate ]).
Qed.

Lemma global_roots_follow_protocol_witness :
  ∃ rt', GlobalRootExample (mkChoices true true false true false true) Sample.runtime
         = Done (true, rt')
    ∧ persistentRoots rt' !! globalPtrSafe = None
    ∧ persistentRoots rt' !! globalMaybeSafe = None
    ∧ events rt'
      = events Sample.runtime
        ++ [Registered globalPtrSafe; Registered globalMaybeSafe;
            Deregistered globalMaybeSafe; Deregistered globalPtrSafe].
Proof.
  destruct global_roots_follow_protocol as (_ & _ & Hrunning & _).
  apply Hrunning. reflexivity.
Defined.

(** ** Relocation *)

Section Relocation.

Lemma rootAt_elem_of addr (reg : StackRootRegistry) r :
  rootAt addr reg = Some r → (addr, r) ∈ reg.
Proof.
  induction reg as [|[a r'] reg IH]; simpl; [done|].
  case_decide as Ha.
  - intros [= ->]. subst. apply list_elem_of_here.
  - intros Hr. apply list_elem_of_further. by apply IH.
Qed.

Lemma rootAt_traceAllUpdating f addr (reg : StackRootRegistry) :
  rootAt addr (traceAllUpdating f reg) = relocateRootable f <$> rootAt addr reg.
Proof.
  unfold traceAllUpdating.
  induction reg as [|[a r] reg IH]; simpl; [done|].
  case_decide; [done | apply IH].
Qed.

Lemma valuesReferents_cons v vs :
  valuesReferents (v :: vs) = markReferent (referentOf v) (valuesReferents vs).
Proof. done. Qed.

Lemma relocateValue_referents f (vs : list Value) c :
  c ∈ valuesReferents vs → f c ∈ valuesReferents (relocateValue f <$> vs).
Proof.
  induction vs as [|v vs IH]; [done|].
  rewrite fmap_cons, !valuesReferents_cons.
  rewrite (markReferent_union _ (valuesReferents vs)).
  rewrite (markReferent_union _ (valuesReferents (_ <$> vs))).
  intros [Hv|Hvs]%elem_of_union; apply elem_of_union; [left | right; by apply IH].
  destruct v as [| |c'|]; simpl in *; try by apply not_elem_of_empty in Hv.
  apply elem_of_union in Hv as [Hv|Hv]; [|by apply not_elem_of_empty in Hv].
  apply elem_of_singleton in Hv as ->.
  apply elem_of_union_l, elem_of_singleton. reflexivity.
Qed.

Lemma relocateBox_referents f box c :
  c ∈ boxReferents box → f c ∈ boxReferents (relocateBox f box).
Proof. apply (relocateValue_referents f (stashed box :: container box)). Qed.

Lemma relocateRootable_referents f r c :
  c ∈ rootableReferents r → f c ∈ rootableReferents (relocateRootable f r).
Proof.
  destruct r as [[c'|] | b | [[[p b]|]] | [[[p b]|]]]; simpl;
    try (intros H; by apply not_elem_of_empty in H);
    try apply relocateBox_referents.
  intros [Hc|Hc]%elem_of_union; [|by apply not_elem_of_empty in Hc].
  apply elem_of_singleton in Hc as ->.
  apply elem_of_union_l, elem_of_singleton. reflexivity.
Qed.

End Relocation.

(** C8: a relocating collection keeps the identity of what the stack roots
    refer to.  If the root at an address (and so every Handle borrowing it)
    refers to an object before the pass, then after the pass, in which the
    object moved from [c] to [f c], the root holds the new address, put there
    by the updating traceAll over the registry, and the object at that
    address is the same one: the same class and the same slots, with the
    references in them relocated as well.  In particular a rooted JSObject*
    resolves to the same object before and after. *)
Theorem relocation_preserves_what_roots_resolve_to
    (f : Cell → Cell) (rt : Runtime) (addr : Ptr) (r : Rootable)
    (c : Cell) (obj : JSObject) :
  Inj (=) (=) f →
  wellFormed (gcHeap rt) (nativeHeap rt) →
  rootAt addr (stackRoots rt) = Some r →
  c ∈ rootableReferents r →
  gcHeap rt !! c = Some obj →
  ∃ rt', relocatingGC f rt = Some rt'
    ∧ stackRoots rt' = traceAllUpdating f (stackRoots rt)
    ∧ rootAt addr (stackRoots rt') = Some (relocateRootable f r)
    ∧ f c ∈ rootableReferents (relocateRootable f r)
    ∧ gcHeap rt' !! f c = Some (relocateObject f obj)
    ∧ (r = RootObject (Some c) →
       resolve rt addr = Some obj
       ∧ resolve rt' addr = Some (relocateObject f obj)).
Proof.
  intros Hinj Hwf Hroot Hc Hobj.
  destruct (JS_GC_spec rt Hwf) as (trc & rt1 & _ & Hgc & Hcol & Hroots & _ & _).
  assert (Hlive : gcHeap rt1 !! c = Some obj).
  { rewrite <- Hobj. eapply collected_live; [done|].
    apply (Hroots r); [|done]. left. exists addr. by apply rootAt_elem_of. }
  assert (Hstack : stackRoots rt1 = stackRoots rt).
  { by destruct Hcol as (_ & _ & _ & -> & _). }
  assert (Hroot' : rootAt addr (traceAllUpdating f (stackRoots rt))
                   = Some (relocateRootable f r)).
  { by rewrite rootAt_traceAllUpdating, Hroot. }
  assert (Hobj' : gcHeap (relocate f rt1) !! f c = Some (relocateObject f obj)).
  { simpl. by rewrite lookup_kmap, lookup_fmap, Hlive. }
  exists (relocate f rt1). unfold relocatingGC. rewrite Hgc. simpl.
  rewrite Hstack.
  split_and!; [done | done | done | by apply relocateRootable_referents | done |].
  intros ->. unfold resolve. simpl. rewrite Hstack, Hroot, Hroot'. simpl.
  by rewrite Hobj.
Qed.

Lemma relocation_preserves_what_roots_resolve_to_witness :
  ∃ rt', relocatingGC Pos.succ Sample.runtime = Some rt'
    ∧ stackRoots rt' = traceAllUpdating Pos.succ (stackRoots Sample.runtime)
    ∧ rootAt 20 (stackRoots rt')
      = Some (relocateRootable Pos.succ (RootObject (Some 2%positive)))
    ∧ 3%positive ∈ rootableReferents
                     (relocateRootable Pos.succ (RootObject (Some 2%positive)))
    ∧ gcHeap rt' !! 3%positive = Some (relocateObject Pos.succ Sample.plain)
    ∧ (RootObject (Some 2%positive) = RootObject (Some 2%positive) →
       resolve Sample.runtime 20 = Some Sample.plain
       ∧ resolve rt' 20 = Some (relocateObject Pos.succ Sample.plain)).
Proof.
  apply (relocation_preserves_what_roots_resolve_to
           Pos.succ Sample.runtime 20 (RootObject (Some 2%positive)) 2 Sample.plain).
  - intros x y. apply Pos.succ_inj.
  - apply checkWellFormed_sound. vm_compute. reflexivity.
  - reflexivity.
  - simpl. apply elem_of_union_l, elem_of_singleton. reflexivity.
  - vm_compute. reflexivity.
Defined.

(** * Further properties of the example *)

(** ** Allocation and scopes *)

Section Scopes.

Lemma freshCell_fresh (h : gmap positive JSObject) : h !! freshCell h = None.
Proof.
  unfold freshCell.
  assert (Hbound : ∀ (l : list (positive * JSObject)) e, e ∈ l →
            (e.1 ≤ foldr (λ entry top, Pos.max entry.1 top) 1 l)%positive).
  { induction l as [|x l IH]; intros e He; [by apply elem_of_nil in He|].
    simpl. apply elem_of_cons in He as [->|He]; [lia|].
    specialize (IH e He). lia. }
  destruct (h !! Pos.succ _) as [obj|] eqn:Hobj; [|done].
  apply elem_of_map_to_list in Hobj. apply Hbound in Hobj. simpl in Hobj. lia.
Qed.

Lemma Runtime_eta rt : withStackRoots (stackRoots rt) rt = rt.
Proof. by destruct rt. Qed.

(** A collection leaves the phase, the roots and the allocator alone. *)
Lemma JS_GC_frame rt rt' :
  JS_GC rt = Some rt' →
  phase rt' = phase rt ∧ stackRoots rt' = stackRoots rt
  ∧ persistentRoots rt' = persistentRoots rt ∧ nextPtr rt' = nextPtr rt
  ∧ events rt' = events rt.
Proof.
  unfold JS_GC, sweep. destruct (mark rt) as [trc|]; [|done]. simpl.
  destruct (runFinalizers _ _) as [nh|]; [|done]. simpl.
  by intros [= <-].
Qed.

Lemma zealCollection_frame zeal rt rt0 :
  zealCollection zeal rt = Some rt0 →
  phase rt0 = phase rt ∧ stackRoots rt0 = stackRoots rt
  ∧ persistentRoots rt0 = persistentRoots rt ∧ nextPtr rt0 = nextPtr rt
  ∧ events rt0 = events rt.
Proof.
  unfold zealCollection. destruct zeal; [apply JS_GC_frame|]. by intros [= <-].
Qed.

Lemma JS_NewObject_zeal zeal ok blank rt rt0 :
  zealCollection zeal rt = Some rt0 →
  JS_NewObject zeal ok blank rt
  = if ok
    then Done (Some (freshCell (gcHeap rt0)),
               withGcHeap (<[freshCell (gcHeap rt0) := blank]> (gcHeap rt0)) rt0)
    else Done (None, rt0).
Proof.
  unfold zealCollection, JS_NewObject. destruct zeal; simpl.
  - by intros ->.
  - by intros [= <-].
Qed.

End Scopes.

(** ** CustomObject::create *)

(** X1: when the allocation succeeds, create returns a cell that held no
    object before, leaves there an object of the Custom class whose owned
    slot reads back [box1] and whose unowned slot reads back [box2], and
    leaves everything else as the allocation left it: the other objects, the
    native heap, the stack registry (its own root is popped again) and the
    persistent roots. *)
Theorem create_stores_both_boxes
    (zeal : bool) (box1 box2 : Ptr) (rt rt0 : Runtime) :
  phase rt = Running →
  zealCollection zeal rt = Some rt0 →
  ∃ c obj rt',
    CustomObject_create zeal true box1 box2 rt = Done (Some c, rt')
    ∧ gcHeap rt0 !! c = None
    ∧ gcHeap rt' = <[c := obj]> (gcHeap rt0)
    ∧ clasp obj = CustomClass
    ∧ CustomObject.ownedBox obj = Some box1
    ∧ CustomObject.unownedBox obj = Some box2
    ∧ nativeHeap rt' = nativeHeap rt0
    ∧ stackRoots rt' = stackRoots rt
    ∧ persistentRoots rt' = persistentRoots rt.
Proof.
  intros Hrun Hzeal.
  destruct (zealCollection_frame _ _ _ Hzeal) as (Hph & Hst & Hpe & _).
  exists (freshCell (gcHeap rt0)), (CustomObject.initSlots box1 box2).
  unfold CustomObject_create.
  rewrite (JS_NewObject_zeal zeal true _ rt rt0 Hzeal). simpl.
  unfold Rooted_construct. simpl. rewrite Hph, Hrun. simpl.
  unfold Rooted_destruct, pop. simpl.
  eexists. split_and!; [reflexivity | apply freshCell_fresh | | done..].
  simpl. by rewrite !alter_insert_eq.
Qed.

Lemma create_stores_both_boxes_witness :
  ∃ c obj rt',
    CustomObject_create true true 261 3 Scenario.beforeCreate = Done (Some c, rt')
    ∧ gcHeap Scenario.beforeCreate !! c = None
    ∧ gcHeap rt' = <[c := obj]> (gcHeap Scenario.beforeCreate)
    ∧ clasp obj = CustomClass
    ∧ CustomObject.ownedBox obj = Some 261%N
    ∧ CustomObject.unownedBox obj = Some 3%N
    ∧ nativeHeap rt' = nativeHeap Scenario.beforeCreate
    ∧ stackRoots rt' = stackRoots Scenario.beforeCreate
    ∧ persistentRoots rt' = persistentRoots Scenario.beforeCreate.
Proof.
  apply (create_stores_both_boxes true 261 3 Scenario.beforeCreate Scenario.beforeCreate).
  - reflexivity.
  - vm_compute. reflexivity.
Defined.

(** X2: when the allocation fails, create returns null and the runtime is
    exactly what the allocation left: no object is added and the root create
    pushed is popped again. *)
Theorem create_fails_cleanly
    (zeal : bool) (box1 box2 : Ptr) (rt rt0 : Runtime) :
  phase rt = Running →
  zealCollection zeal rt = Some rt0 →
  CustomObject_create zeal false box1 box2 rt = Done (None, rt0).
Proof.
  intros Hrun Hzeal.
  destruct (zealCollection_frame _ _ _ Hzeal) as (Hph & _).
  unfold CustomObject_create.
  rewrite (JS_NewObject_zeal zeal false _ rt rt0 Hzeal). simpl.
  unfold Rooted_construct. rewrite Hph, Hrun. simpl.
  unfold Rooted_destruct, pop. simpl.
  by destruct rt0.
Qed.

Lemma create_fails_cleanly_witness :
  CustomObject_create false false 261 3 Scenario.beforeCreate
  = Done (None, Scenario.beforeCreate).
Proof.
  apply (create_fails_cleanly false 261 3 Scenario.beforeCreate Scenario.beforeCreate);
    reflexivity.
Defined.

(** ** What SafeBox::trace marks *)

Section Marks.

Lemma elem_of_valuesReferents (vs : list Value) c :
  c ∈ valuesReferents vs ↔ ObjectValue c ∈ vs.
Proof.
  induction vs as [|v vs IH].
  - split; [intros H; by apply not_elem_of_empty in H | intros H; by apply elem_of_nil in H].
  - rewrite valuesReferents_cons, elem_of_cons, <- IH.
    destruct v as [| |c'|]; simpl; try (split; [by right | by intros [?|?]]).
    rewrite elem_of_union, elem_of_singleton. split.
    + intros [->|?]; [by left | by right].
    + intros [[= ->]|?]; [by left | by right].
Qed.

End Marks.

(** X3: SafeBox::trace adds to the marking state exactly the cells that the
    stashed value and the container elements refer to.  A field that holds
    undefined, a number or a native pointer adds nothing, and nothing that
    was marked before is lost. *)
Theorem SafeBox_trace_marks_exactly_the_object_fields
    (this : Ptr) (box : SafeBox) (trc : JSTracer) (c : Cell) :
  c ∈ marked (SafeBox_trace this box trc)
  ↔ c ∈ marked trc ∨ stashed box = ObjectValue c ∨ ObjectValue c ∈ container box.
Proof.
  rewrite SafeBox_trace_marked, elem_of_union. unfold boxReferents.
  rewrite elem_of_valuesReferents, elem_of_cons. naive_solver.
Qed.

(** ** The finalize hook and the native heap *)

(** X4: CustomObject::finalize releases the box in the owned slot and
    nothing else: every other address of the native heap holds what it held.
    It does not look at the unowned slot, so when both slots hold the same
    box, the box the unowned slot points to is gone afterwards. *)
Theorem finalize_releases_the_owned_slot_only
    (nh : NativeHeap) (obj : JSObject) (o : Ptr) (box : SafeBox) :
  CustomObject.ownedBox obj = Some o →
  o ≠ nullptr →
  nh !! o = Some box →
  ∃ nh', CustomObject.finalize nh obj = Some nh'
    ∧ nh' !! o = None
    ∧ (∀ p, p ≠ o → nh' !! p = nh !! p)
    ∧ (∀ u, CustomObject.unownedBox obj = Some u →
            nh' !! u = if decide (u = o) then None else nh !! u).
Proof.
  intros Ho Hnn Hbox. exists (delete o nh).
  rewrite (finalize_owned nh obj o Ho). unfold delete_.
  rewrite (nonNull_true o Hnn), Hbox. simpl.
  split_and!; [done | apply lookup_delete_eq | |].
  - intros p Hp. by apply lookup_delete_ne.
  - intros u _. case_decide as Hu.
    + subst. apply lookup_delete_eq.
    + by apply lookup_delete_ne.
Qed.

Lemma finalize_releases_the_owned_slot_only_witness :
  ∃ nh', CustomObject.finalize Sample.heap Sample.aliased = Some nh'
    ∧ nh' !! 1%N = None
    ∧ (∀ p, p ≠ 1%N → nh' !! p = Sample.heap !! p)
    ∧ (∀ u, CustomObject.unownedBox Sample.aliased = Some u →
            nh' !! u = if decide (u = 1%N) then None else Sample.heap !! u).
Proof.
  apply (finalize_releases_the_owned_slot_only Sample.heap Sample.aliased 1 Sample.boxA).
  - reflexivity.
  - discriminate.
  - reflexivity.
Defined.

(** X5: CustomObject::finalize leaves the owned slot as it is, so after it
    has run neither hook may run on the object again: a second finalize
    deletes the released box once more and a trace reads through the dangling
    pointer, both undefined. *)
Theorem hooks_are_undefined_after_finalize
    (nh : NativeHeap) (obj : JSObject) (o : Ptr) (box : SafeBox) (trc : JSTracer) :
  CustomObject.ownedBox obj = Some o →
  o ≠ nullptr →
  nh !! o = Some box →
  ∃ nh', CustomObject.finalize nh obj = Some nh'
    ∧ CustomObject.finalize nh' obj = None
    ∧ CustomObject.trace nh' obj trc = None.
Proof.
  intros Ho Hnn Hbox. exists (delete o nh).
  unfold CustomObject.trace, CustomObject.traceBox.
  rewrite !(finalize_owned _ obj o Ho), Ho. unfold delete_. simpl.
  rewrite (nonNull_true o Hnn), Hbox, lookup_delete_eq. done.
Qed.

Lemma hooks_are_undefined_after_finalize_witness :
  ∃ nh', CustomObject.finalize Sample.heap Sample.custom = Some nh'
    ∧ CustomObject.finalize nh' Sample.custom = None
    ∧ CustomObject.trace nh' Sample.custom newTracer = None.
Proof.
  apply (hooks_are_undefined_after_finalize
           Sample.heap Sample.custom 1 Sample.boxA newTracer).
  - reflexivity.
  - discriminate.
  - reflexivity.
Defined.

(** ** Marking without the ownership discipline *)

Section MarkingSound.

Lemma traceBox_Some nh b trc trc' :
  CustomObject.traceBox nh b trc = Some trc' →
  marked trc' = referentsVia nh b ∪ marked trc.
Proof.
  unfold CustomObject.traceBox, referentsVia. destruct (nonNull b).
  - destruct (nh !! b) as [box|]; simpl; [|done].
    intros [= <-]. apply SafeBox_trace_marked.
  - intros [= <-]. by rewrite (left_id_L ∅ (∪)).
Qed.

Lemma traceObject_Some nh c obj trc trc' :
  traceObject nh c obj trc = Some trc' →
  marked trc' = objectReferents nh obj ∪ marked trc.
Proof.
  unfold traceObject, objectReferents, CustomObject.trace.
  destruct (clasp obj).
  - intros [= <-]. rewrite traceSlots_marked. set_solver.
  - destruct (CustomObject.ownedBox obj) as [o|]; simpl; [|done].
    destruct (CustomObject.traceBox nh o _) as [t1|] eqn:E1; simpl; [|done].
    destruct (CustomObject.unownedBox obj) as [u|]; simpl; [|done].
    intros E2. apply traceBox_Some in E1, E2.
    rewrite E2, E1, traceSlots_marked. set_solver.
Qed.

Lemma traceCells_Some h nh cells : ∀ trc trc',
  traceCells h nh cells trc = Some trc' →
  ∀ d, d ∈ marked trc' →
       d ∈ marked trc
       ∨ ∃ c obj, c ∈ cells ∧ h !! c = Some obj ∧ d ∈ objectReferents nh obj.
Proof.
  induction cells as [|c rest IH]; intros trc trc'; simpl.
  - intros [= <-] d Hd. by left.
  - destruct (h !! c) as [obj|] eqn:Hc.
    + destruct (traceObject nh c obj trc) as [t1|] eqn:E1; simpl; [|done].
      intros E2 d Hd. apply traceObject_Some in E1.
      destruct (IH _ _ E2 d Hd) as [Hd1|(c' & obj' & Hin & Hc' & Hd')].
      * rewrite E1 in Hd1. apply elem_of_union in Hd1 as [Hd1|Hd1]; [|by left].
        right. exists c, obj. split; [apply list_elem_of_here | done].
      * right. exists c', obj'. split; [by apply list_elem_of_further | done].
    + simpl. intros E2 d Hd.
      destruct (IH _ _ E2 d Hd) as [Hd1|(c' & obj' & Hin & Hc' & Hd')]; [by left|].
      right. exists c', obj'. split; [by apply list_elem_of_further | done].
Qed.

Lemma markLoop_Some rt rounds : ∀ trc trc',
  markLoop rounds (gcHeap rt) (nativeHeap rt) trc = Some trc' →
  (∀ c, c ∈ marked trc → reachable rt c) →
  ∀ c, c ∈ marked trc' → reachable rt c.
Proof.
  induction rounds as [|rounds IH]; intros trc trc'; simpl.
  - by intros [= <-].
  - destruct (markStep _ _ trc) as [t1|] eqn:E1; simpl; [|done].
    intros E2 Hsound. apply (IH t1 trc' E2).
    intros d Hd. unfold markStep in E1.
    destruct (traceCells_Some _ _ _ _ _ E1 d Hd) as [?|(c & obj & Hc & Hobj & Hd')];
      [by apply Hsound|].
    apply elem_of_elements in Hc.
    eapply reachable_edge; [by apply Hsound | done | done].
Qed.

(** Whatever the heap looks like, marking marks nothing that no trace path
    leads to. *)
Lemma mark_sound rt trc :
  mark rt = Some trc → ∀ c, c ∈ marked trc → reachable rt c.
Proof.
  unfold mark. intros E. apply (markLoop_Some rt _ _ _ E).
  intros c (r & Hr & Hc)%traceRoots_marked. by eapply reachable_root.
Qed.

End MarkingSound.

(** ** Two owners of one box *)

Section SharedOwner.

Lemma finalizeObject_released nh nh' obj q :
  finalizeObject nh obj = Some nh' → nh !! q = None → nh' !! q = None.
Proof.
  unfold finalizeObject, CustomObject.finalize, delete_.
  destruct (clasp obj); [by intros [= <-]|].
  destruct (CustomObject.ownedBox obj) as [o|]; simpl; [|done].
  destruct (nonNull o); [|by intros [= <-]].
  destruct (nh !! o); simpl; [|done].
  intros [= <-] Hq. destruct (decide (q = o)) as [->|Hne].
  - apply lookup_delete_eq.
  - by rewrite lookup_delete_ne.
Qed.

Lemma finalizeObject_owner nh obj p :
  ownedPtr obj = Some p →
  finalizeObject nh obj = (_ ← nh !! p; Some (delete p nh)).
Proof.
  intros (Hclasp & Ho & Hnn)%ownedPtr_Some.
  unfold finalizeObject. rewrite Hclasp, (finalize_owned nh obj p Ho).
  unfold delete_. by rewrite (nonNull_true p Hnn).
Qed.

Lemma runFinalizers_released dead : ∀ (nh : NativeHeap) p c obj,
  nh !! p = None → (c, obj) ∈ dead → ownedPtr obj = Some p →
  runFinalizers dead nh = None.
Proof.
  induction dead as [|[c0 obj0] rest IH]; intros nh p c obj Hp Hin Ho.
  - by apply elem_of_nil in Hin.
  - simpl. apply elem_of_cons in Hin as [[= <- <-]|Hin].
    + by rewrite (finalizeObject_owner nh obj p Ho), Hp.
    + destruct (finalizeObject nh obj0) as [nh1|] eqn:E; simpl; [|done].
      apply (IH nh1 p c obj); [|done..].
      by eapply finalizeObject_released.
Qed.

Lemma runFinalizers_two_owners dead : ∀ (nh : NativeHeap) p c1 obj1 c2 obj2,
  c1 ≠ c2 → (c1, obj1) ∈ dead → (c2, obj2) ∈ dead →
  ownedPtr obj1 = Some p → ownedPtr obj2 = Some p →
  runFinalizers dead nh = None.
Proof.
  induction dead as [|[c0 obj0] rest IH]; intros nh p c1 obj1 c2 obj2 Hne H1 H2 Ho1 Ho2.
  - by apply elem_of_nil in H1.
  - simpl. destruct (finalizeObject nh obj0) as [nh1|] eqn:E; simpl; [|done].
    apply elem_of_cons in H1 as [[= <- <-]|H1];
      apply elem_of_cons in H2 as [[= <- <-]|H2]; try done.
    + rewrite (finalizeObject_owner nh obj1 p Ho1) in E.
      destruct (nh !! p); simpl in E; [|done]. injection E as <-.
      apply (runFinalizers_released rest _ p c2 obj2); [apply lookup_delete_eq | done..].
    + rewrite (finalizeObject_owner nh obj2 p Ho2) in E.
      destruct (nh !! p); simpl in E; [|done]. injection E as <-.
      apply (runFinalizers_released rest _ p c1 obj1); [apply lookup_delete_eq | done..].
    + by apply (IH nh1 p c1 obj1 c2 obj2).
Qed.

End SharedOwner.

(** X6: finalize deletes the owned box unconditionally, so ownership has to
    be exclusive: when two CustomObjects own the same box and no trace path
    leads to either, the collection that finalizes them deletes the box
    twice, which is undefined. *)
Theorem two_owners_of_one_box_break_the_collection
    (rt : Runtime) (c1 c2 : Cell) (obj1 obj2 : JSObject) (p : Ptr) :
  c1 ≠ c2 →
  gcHeap rt !! c1 = Some obj1 → gcHeap rt !! c2 = Some obj2 →
  ownedPtr obj1 = Some p → ownedPtr obj2 = Some p →
  ¬ reachable rt c1 → ¬ reachable rt c2 →
  JS_GC rt = None.
Proof.
  intros Hne H1 H2 Ho1 Ho2 Hd1 Hd2. unfold JS_GC.
  destruct (mark rt) as [trc|] eqn:Hmark; [|done]. simpl.
  unfold sweep.
  rewrite (runFinalizers_two_owners _ _ p c1 obj1 c2 obj2); [done | done | | | done..].
  - apply elem_of_deadObjects. split; [|done].
    intros Hm. by apply Hd1, (mark_sound rt trc).
  - apply elem_of_deadObjects. split; [|done].
    intros Hm. by apply Hd2, (mark_sound rt trc).
Qed.

Lemma two_owners_of_one_box_break_the_collection_witness :
  JS_GC Scenario.sharedOwner = None.
Proof.
  apply (two_owners_of_one_box_break_the_collection Scenario.sharedOwner 3 4
           (CustomObject.initSlots 261 0) (CustomObject.initSlots 261 0) 261).
  - discriminate.
  - vm_compute. reflexivity.
  - vm_compute. reflexivity.
  - reflexivity.
  - reflexivity.
  - intros Hreach. apply (closedUnder_sound _ ∅) in Hreach.
    + by apply not_elem_of_empty in Hreach.
    + vm_compute. reflexivity.
  - intros Hreach. apply (closedUnder_sound _ ∅) in Hreach.
    + by apply not_elem_of_empty in Hreach.
    + vm_compute. reflexivity.
Defined.

(** ** What stays alive through a reachable CustomObject *)

Section LiveObjects.

Lemma collected_boxes_kept rt trc rt1 c obj p :
  wellFormed (gcHeap rt) (nativeHeap rt) →
  collected rt trc rt1 → c ∈ marked trc →
  gcHeap rt !! c = Some obj → clasp obj = CustomClass →
  CustomObject.ownedBox obj = Some p ∨ CustomObject.unownedBox obj = Some p →
  nativeHeap rt1 !! p = nativeHeap rt !! p.
Proof.
  intros Hwf (_ & Hnh & _) Hm Hc Hclasp Hp. rewrite Hnh, decide_False; [done|].
  intros (c' & obj' & [Hdead Hc']%elem_of_deadObjects & Hp')%elem_of_ownedBy.
  destruct Hp as [Ho|Hu].
  - assert (ownedPtr obj = Some p) as Hown.
    { apply ownedPtr_Some. split_and!; [done | done |].
      by apply ownedPtr_Some in Hp' as (_ & _ & ?). }
    assert (c = c') by apply (wf_exclusive _ _ Hwf c c' obj obj' p Hc Hc' Hown Hp').
    by subst.
  - by apply (wf_borrowed _ _ Hwf c c' obj obj' p Hc Hc' Hclasp Hu).
Qed.

Lemma collected_objectReferents rt trc rt1 c obj :
  wellFormed (gcHeap rt) (nativeHeap rt) →
  collected rt trc rt1 → c ∈ marked trc → gcHeap rt !! c = Some obj →
  objectReferents (nativeHeap rt1) obj = objectReferents (nativeHeap rt) obj.
Proof.
  intros Hwf Hcol Hm Hc. unfold objectReferents.
  destruct (clasp obj) eqn:Hclasp; [done|].
  destruct (wf_slots _ _ Hwf c obj Hc Hclasp) as (o & u & Ho & Hu & _).
  rewrite Ho, Hu. simpl. unfold referentsVia.
  rewrite (collected_boxes_kept rt trc rt1 c obj o Hwf Hcol Hm Hc Hclasp (or_introl Ho)).
  by rewrite (collected_boxes_kept rt trc rt1 c obj u Hwf Hcol Hm Hc Hclasp (or_intror Hu)).
Qed.

(** One collection, seen from the cells some trace path leads to: they stay
    reachable, their objects stay, and so do the boxes of the CustomObjects
    among them. *)
Lemma JS_GC_live rt :
  wellFormed (gcHeap rt) (nativeHeap rt) →
  ∃ rt1, JS_GC rt = Some rt1
    ∧ wellFormed (gcHeap rt1) (nativeHeap rt1)
    ∧ ∀ c, reachable rt c →
        reachable rt1 c
        ∧ gcHeap rt1 !! c = gcHeap rt !! c
        ∧ ∀ obj p, gcHeap rt !! c = Some obj → clasp obj = CustomClass →
            CustomObject.ownedBox obj = Some p ∨ CustomObject.unownedBox obj = Some p →
            nativeHeap rt1 !! p = nativeHeap rt !! p.
Proof.
  intros Hwf.
  destruct (JS_GC_spec rt Hwf) as (trc & rt1 & Hmark & Hgc & Hcol & _ & _ & Hwf1).
  exists rt1. split_and!; [done | done |].
  assert (Hmarked : ∀ c, reachable rt c → c ∈ marked trc).
  { intros c Hc. apply (mark_complete rt trc Hwf Hmark c Hc). }
  assert (Hreach : ∀ c, reachable rt c → reachable rt1 c).
  { intros c Hc. induction Hc as [r c Hr Hc | c obj d Hc IH Hobj Hd].
    - eapply reachable_root; [|done]. by apply (collected_isRoot rt trc rt1).
    - eapply (reachable_edge rt1 c obj d); [done | |].
      + rewrite <- Hobj. eapply collected_live; [done | by apply Hmarked].
      + rewrite (collected_objectReferents rt trc rt1 c obj); [done..|by apply Hmarked|done]. }
  intros c Hc. split_and!.
  - by apply Hreach.
  - eapply collected_live; [done | by apply Hmarked].
  - intros obj p Hobj Hclasp Hp.
    eapply collected_boxes_kept; [done | done | by apply Hmarked | done..].
Qed.

Lemma collections_live n : ∀ rt,
  wellFormed (gcHeap rt) (nativeHeap rt) →
  ∃ rt', collections n rt = Some rt'
    ∧ wellFormed (gcHeap rt') (nativeHeap rt')
    ∧ ∀ c, reachable rt c →
        reachable rt' c
        ∧ gcHeap rt' !! c = gcHeap rt !! c
        ∧ ∀ obj p, gcHeap rt !! c = Some obj → clasp obj = CustomClass →
            CustomObject.ownedBox obj = Some p ∨ CustomObject.unownedBox obj = Some p →
            nativeHeap rt' !! p = nativeHeap rt !! p.
Proof.
  induction n as [|n IH]; intros rt Hwf; simpl.
  - exists rt. split_and!; [done | done |]. intros c Hc. split_and!; done.
  - destruct (JS_GC_live rt Hwf) as (rt1 & Hgc & Hwf1 & Hlive1).
    rewrite Hgc. simpl.
    destruct (IH rt1 Hwf1) as (rt' & E & Hwf' & Hlive').
    exists rt'. split_and!; [done | done |].
    intros c Hc. destruct (Hlive1 c Hc) as (Hc1 & Hobj1 & Hbox1).
    destruct (Hlive' c Hc1) as (Hc' & Hobj' & Hbox').
    split_and!; [done | by rewrite Hobj', Hobj1 |].
    intros obj p Hobj Hclasp Hp.
    rewrite (Hbox' obj p); [by apply (Hbox1 obj p) | by rewrite Hobj1 | done..].
Qed.

End LiveObjects.

(** X7: the trace hook traces both boxes, owned or not, so whatever either
    box refers to stays alive with the object.  In a runtime that follows the
    ownership discipline, for a CustomObject that some trace path leads to,
    any number of collections leave the object, both of its boxes and every
    object the boxes refer to as they were. *)
Theorem reachable_CustomObject_keeps_its_boxes_and_their_referents
    (rt : Runtime) (c : Cell) (obj : JSObject) (o u : Ptr) (n : nat) :
  wellFormed (gcHeap rt) (nativeHeap rt) →
  reachable rt c →
  gcHeap rt !! c = Some obj → clasp obj = CustomClass →
  CustomObject.ownedBox obj = Some o →
  CustomObject.unownedBox obj = Some u →
  ∃ rt', collections n rt = Some rt'
    ∧ gcHeap rt' !! c = Some obj
    ∧ nativeHeap rt' !! o = nativeHeap rt !! o
    ∧ nativeHeap rt' !! u = nativeHeap rt !! u
    ∧ ∀ d, d ∈ referentsVia (nativeHeap rt) o ∪ referentsVia (nativeHeap rt) u →
           gcHeap rt' !! d = gcHeap rt !! d.
Proof.
  intros Hwf Hc Hobj Hclasp Ho Hu.
  destruct (collections_live n rt Hwf) as (rt' & E & _ & Hlive).
  destruct (Hlive c Hc) as (_ & Hobj' & Hbox).
  exists rt'. split_and!; [done | by rewrite Hobj' | | |].
  - apply (Hbox obj o Hobj Hclasp). by left.
  - apply (Hbox obj u Hobj Hclasp). by right.
  - intros d Hd.
    assert (Hreach : reachable rt d).
    { eapply (reachable_edge rt c obj d); [done | done |].
      unfold objectReferents. rewrite Hclasp, Ho, Hu. simpl.
      apply elem_of_union. by right. }
    by destruct (Hlive d Hreach) as (_ & ? & _).
Qed.

Lemma reachable_CustomObject_keeps_its_boxes_and_their_referents_witness :
  ∃ rt', collections 4 Scenario.withRootedCustom = Some rt'
    ∧ gcHeap rt' !! 3%positive = Some (CustomObject.initSlots 261 3)
    ∧ nativeHeap rt' !! 261%N = nativeHeap Scenario.withRootedCustom !! 261%N
    ∧ nativeHeap rt' !! 3%N = nativeHeap Scenario.withRootedCustom !! 3%N
    ∧ ∀ d, d ∈ referentsVia (nativeHeap Scenario.withRootedCustom) 261
             ∪ referentsVia (nativeHeap Scenario.withRootedCustom) 3 →
           gcHeap rt' !! d = gcHeap Scenario.withRootedCustom !! d.
Proof.
  apply (reachable_CustomObject_keeps_its_boxes_and_their_referents
           Scenario.withRootedCustom 3 (CustomObject.initSlots 261 3) 261 3 4).
  - apply checkWellFormed_sound. vm_compute. reflexivity.
  - apply (reachable_root _ (RootObject (Some 3%positive))).
    + left. exists 21%N. apply list_elem_of_here.
    + simpl. apply elem_of_union_l, elem_of_singleton. reflexivity.
  - vm_compute. reflexivity.
  - reflexivity.
  - reflexivity.
  - reflexivity.
Defined.

(** ** An object only a raw pointer refers to *)

Section Unrooted.

Lemma unownedb_sound h p : unownedb h p = true → unowned h p.
Proof.
  intros Hall c obj Hc.
  pose proof (forallb_elem_of _ _ (c, obj) Hall) as Hok.
  rewrite elem_of_map_to_list in Hok. specialize (Hok Hc). simpl in Hok.
  by apply negb_true_iff, bool_decide_eq_false in Hok.
Qed.

Lemma unborrowedb_sound h p : unborrowedb h p = true → unborrowed h p.
Proof.
  intros Hall c obj Hc.
  pose proof (forallb_elem_of _ _ (c, obj) Hall) as Hok.
  rewrite elem_of_map_to_list in Hok. specialize (Hok Hc). simpl in Hok.
  by apply negb_true_iff, bool_decide_eq_false in Hok.
Qed.

Lemma noDanglingb_sound rt cells : noDanglingb rt cells = true → noDangling rt.
Proof.
  unfold noDanglingb. intros [Hclosed Hsub]%andb_prop d Hd.
  apply bool_decide_eq_true in Hsub.
  apply elem_of_dom, Hsub. by apply (closedUnder_sound rt cells).
Qed.

Lemma CustomObject_create_ok zeal box1 box2 rt rt0 :
  phase rt = Running →
  zealCollection zeal rt = Some rt0 →
  ∃ rt1,
    CustomObject_create zeal true box1 box2 rt
    = Done (Some (freshCell (gcHeap rt0)), rt1)
    ∧ gcHeap rt1
      = <[freshCell (gcHeap rt0) := CustomObject.initSlots box1 box2]> (gcHeap rt0)
    ∧ nativeHeap rt1 = nativeHeap rt0
    ∧ stackRoots rt1 = stackRoots rt0
    ∧ persistentRoots rt1 = persistentRoots rt0
    ∧ finalized rt1 = finalized rt0
    ∧ phase rt1 = Running
    ∧ nextPtr rt1 = nextPtr rt0.
Proof.
  intros Hrun Hzeal.
  destruct (zealCollection_frame _ _ _ Hzeal) as (Hph & _).
  unfold CustomObject_create.
  rewrite (JS_NewObject_zeal zeal true _ rt rt0 Hzeal). simpl.
  unfold Rooted_construct. simpl. rewrite Hph, Hrun. simpl.
  unfold Rooted_destruct, pop. simpl.
  eexists. split_and!; [reflexivity | | try done..].
  - simpl. by rewrite !alter_insert_eq.
  - simpl. congruence.
Qed.

Lemma wellFormed_insert_custom h nh c box1 box2 :
  wellFormed h nh → h !! c = None →
  usable nh box1 → usable nh box2 →
  unowned h box1 → unborrowed h box1 → unowned h box2 →
  box1 = nullptr ∨ box1 ≠ box2 →
  wellFormed (<[c := CustomObject.initSlots box1 box2]> h) nh.
Proof.
  intros Hwf Hfresh U1 U2 Hown1 Hbor1 Hown2 Hne.
  assert (Hnew : ∀ p, ownedPtr (CustomObject.initSlots box1 box2) = Some p →
                      p = box1 ∧ box1 ≠ nullptr).
  { intros p (_ & Hp & Hnn)%ownedPtr_Some.
    destruct (initSlots_boxes box1 box2) as [Ho _]. rewrite Ho in Hp.
    by simplify_eq. }
  split.
  - intros c0 obj [[-> <-]|[Hc0 Hobj]]%lookup_insert_Some Hclasp.
    + exists box1, box2. by destruct (initSlots_boxes box1 box2).
    + by apply (wf_slots _ _ Hwf c0).
  - intros c1 c2 obj1 obj2 p
      [[-> <-]|[Hc1 Hobj1]]%lookup_insert_Some
      [[-> <-]|[Hc2 Hobj2]]%lookup_insert_Some Hp1 Hp2; [done | | |].
    + apply Hnew in Hp1 as [-> _]. by destruct (Hown1 c2 obj2 Hobj2).
    + apply Hnew in Hp2 as [-> _]. by destruct (Hown1 c1 obj1 Hobj1).
    + by apply (wf_exclusive _ _ Hwf c1 c2 obj1 obj2 p).
  - intros c1 c2 obj1 obj2 u
      [[-> <-]|[Hc1 Hobj1]]%lookup_insert_Some
      [[-> <-]|[Hc2 Hobj2]]%lookup_insert_Some Hclasp Hu Hp2.
    + apply Hnew in Hp2 as [-> Hnn].
      destruct (initSlots_boxes box1 box2) as [_ Hu']. rewrite Hu' in Hu.
      destruct Hne as [?|Hne]; [done|]. by simplify_eq.
    + destruct (initSlots_boxes box1 box2) as [_ Hu']. rewrite Hu' in Hu.
      simplify_eq. by apply (Hown2 c2 obj2).
    + apply Hnew in Hp2 as [-> _].
      apply (Hbor1 c1 obj1 Hobj1). unfold borrowedPtr. by rewrite Hclasp.
    + by apply (wf_borrowed _ _ Hwf c1 c2 obj1 obj2 u Hobj1 Hobj2).
Qed.

(** A new object at a cell nothing refers to changes nothing about what is
    reachable. *)
Lemma reachable_insert_fresh rt0 rt1 c obj :
  noDangling rt0 → gcHeap rt0 !! c = None →
  gcHeap rt1 = <[c := obj]> (gcHeap rt0) →
  nativeHeap rt1 = nativeHeap rt0 →
  stackRoots rt1 = stackRoots rt0 →
  persistentRoots rt1 = persistentRoots rt0 →
  ∀ d, reachable rt1 d ↔ reachable rt0 d.
Proof.
  intros Hnd Hfresh Hheap Hnh Hst Hpe d.
  assert (Hroot : ∀ r, isRoot rt1 r ↔ isRoot rt0 r).
  { intros r. unfold isRoot. by rewrite Hst, Hpe. }
  assert (Hold : ∀ c0, is_Some (gcHeap rt0 !! c0) →
                       gcHeap rt1 !! c0 = gcHeap rt0 !! c0).
  { intros c0 [o Ho]. rewrite Hheap, lookup_insert_ne; [done|].
    intros ->. by rewrite Hfresh in Ho. }
  split.
  - intros Hd. induction Hd as [r d Hr Hd | c0 obj0 d _ IH Hobj Hd].
    + eapply reachable_root; [by apply Hroot | done].
    + eapply (reachable_edge rt0 c0 obj0 d); [done | |].
      * rewrite <- Hobj. symmetry. by apply Hold, Hnd.
      * by rewrite <- Hnh.
  - intros Hd. induction Hd as [r d Hr Hd | c0 obj0 d _ IH Hobj Hd].
    + eapply reachable_root; [by apply Hroot | done].
    + eapply (reachable_edge rt1 c0 obj0 d); [done | |].
      * rewrite <- Hobj. by apply Hold.
      * by rewrite Hnh.
Qed.

End Unrooted.

(** X8: an object that create returned and that is held in a raw pointer
    only does not survive the next collection.  In a running engine that
    follows the ownership discipline and has no dangling reference, given a
    live box nobody owns or borrows yet and a second, different box nobody
    owns: after create and JS_GC the new object is gone, its finalize hook
    has run once more than before, the first box is released, the second box
    is as it was, and every object that was reachable is untouched. *)
Theorem unrooted_object_from_create_is_collected
    (zeal : bool) (box1 box2 : Ptr) (contents : SafeBox) (rt rt0 : Runtime) :
  phase rt = Running →
  zealCollection zeal rt = Some rt0 →
  wellFormed (gcHeap rt0) (nativeHeap rt0) →
  noDangling rt0 →
  box1 ≠ nullptr → nativeHeap rt0 !! box1 = Some contents →
  usable (nativeHeap rt0) box2 → box1 ≠ box2 →
  unowned (gcHeap rt0) box1 → unborrowed (gcHeap rt0) box1 →
  unowned (gcHeap rt0) box2 →
  ∃ c rt1 rt2,
    CustomObject_create zeal true box1 box2 rt = Done (Some c, rt1)
    ∧ JS_GC rt1 = Some rt2
    ∧ gcHeap rt2 !! c = None
    ∧ timesFinalized rt2 c = S (timesFinalized rt0 c)
    ∧ nativeHeap rt2 !! box1 = None
    ∧ nativeHeap rt2 !! box2 = nativeHeap rt0 !! box2
    ∧ ∀ d, reachable rt0 d → gcHeap rt2 !! d = gcHeap rt0 !! d.
Proof.
  intros Hrun Hzeal Hwf Hnd Hnn Hbox U2 Hne Hown1 Hbor1 Hown2.
  destruct (CustomObject_create_ok zeal box1 box2 rt rt0 Hrun Hzeal)
    as (rt1 & Hcreate & Hheap & Hnh & Hst & Hpe & Hfin & _).
  set (c := freshCell (gcHeap rt0)) in *.
  set (obj := CustomObject.initSlots box1 box2) in *.
  pose proof (freshCell_fresh (gcHeap rt0)) as Hfresh. fold c in Hfresh.
  assert (Hwf1 : wellFormed (gcHeap rt1) (nativeHeap rt1)).
  { rewrite Hheap, Hnh. apply wellFormed_insert_custom; try done.
    - right. by exists contents.
    - by right. }
  pose proof (reachable_insert_fresh rt0 rt1 c obj Hnd Hfresh Hheap Hnh Hst Hpe)
    as Hreach.
  assert (Hdead : ¬ reachable rt1 c).
  { intros Hc%Hreach. destruct (Hnd c Hc) as [? Hsome]. by rewrite Hfresh in Hsome. }
  assert (Hc1 : gcHeap rt1 !! c = Some obj) by (by rewrite Hheap, lookup_insert_eq).
  assert (Howner : ownedPtr obj = Some box1).
  { apply ownedPtr_Some. by destruct (initSlots_boxes box1 box2). }
  destruct (JS_GC_spec rt1 Hwf1) as (trc & rt2 & Hmark & Hgc & Hcol & _ & Hsound & _).
  assert (Hunmarked : c ∉ marked trc) by (intros Hm; by apply Hdead, Hsound).
  exists c, rt1, rt2. split_and!; [done | done | | | | |].
  - by eapply collected_dead.
  - rewrite (collected_finalized_once rt1 trc rt2 c Hcol); [| by exists obj | done].
    unfold timesFinalized. by rewrite Hfin.
  - destruct Hcol as (_ & Hnh2 & _). rewrite Hnh2, decide_True; [done|].
    apply elem_of_ownedBy. exists c, obj. split; [|done].
    by apply elem_of_deadObjects.
  - rewrite <- Hnh. eapply collected_unowned; [done|].
    intros c0 obj0. rewrite Hheap.
    intros [[<- <-]|[_ Hobj0]]%lookup_insert_Some.
    + rewrite Howner. by intros [= ->].
    + by apply (Hown2 c0 obj0).
  - intros d Hd.
    assert (Hd1 : reachable rt1 d) by (by apply Hreach).
    rewrite (collected_live rt1 trc rt2 d Hcol);
      [| apply (mark_complete rt1 trc Hwf1 Hmark d Hd1)].
    rewrite Hheap, lookup_insert_ne; [done|].
    intros <-. destruct (Hnd c Hd) as [? Hsome]. by rewrite Hfresh in Hsome.
Qed.

Lemma unrooted_object_from_create_is_collected_witness :
  ∃ c rt1 rt2,
    CustomObject_create false true 261 3 Scenario.beforeCreate = Done (Some c, rt1)
    ∧ JS_GC rt1 = Some rt2
    ∧ gcHeap rt2 !! c = None
    ∧ timesFinalized rt2 c = S (timesFinalized Scenario.beforeCreate c)
    ∧ nativeHeap rt2 !! 261%N = None
    ∧ nativeHeap rt2 !! 3%N = nativeHeap Scenario.beforeCreate !! 3%N
    ∧ ∀ d, reachable Scenario.beforeCreate d →
           gcHeap rt2 !! d = gcHeap Scenario.beforeCreate !! d.
Proof.
  apply (unrooted_object_from_create_is_collected
           false 261 3 Scenario.newBox Scenario.beforeCreate Scenario.beforeCreate).
  - reflexivity.
  - reflexivity.
  - apply checkWellFormed_sound. vm_compute. reflexivity.
  - apply (noDanglingb_sound _ {[ 2%positive ]}). vm_compute. reflexivity.
  - discriminate.
  - vm_compute. reflexivity.
  - right. exists defaultBox. vm_compute. reflexivity.
  - discriminate.
  - apply unownedb_sound. vm_compute. reflexivity.
  - apply unborrowedb_sound. vm_compute. reflexivity.
  - apply unownedb_sound. vm_compute. reflexivity.
Defined.

(** ** A shared pointer on the stack *)

Section StackRoots.

Lemma Rooted_construct_running addr r rt :
  phase rt = Running →
  Rooted_construct addr r rt = Done (withStackRoots ((addr, r) :: stackRoots rt) rt).
Proof. intros Hrun. unfold Rooted_construct, push. by rewrite Hrun. Qed.

Lemma Rooted_destruct_head addr r reg rt :
  stackRoots rt = (addr, r) :: reg →
  Rooted_destruct addr rt = Done (withStackRoots reg rt).
Proof.
  intros Hst. unfold Rooted_destruct, pop. rewrite Hst.
  by rewrite decide_True.
Qed.

End StackRoots.

(** X9: a std::shared_ptr<SafeBox> in a JS::Rooted is traced through the
    policy for shared pointers and SafeBox::trace, so while the root is in
    scope every object that a field of the box refers to survives any number
    of collections; destroying the root gives back the runtime as it was
    before the root was constructed. *)
Theorem rooted_shared_ptr_keeps_what_its_box_refers_to
    (rt : Runtime) (addr target : Ptr) (box : SafeBox) (c : Cell) (n : nat) :
  phase rt = Running →
  wellFormed (gcHeap rt) (nativeHeap rt) →
  stashed box = ObjectValue c ∨ ObjectValue c ∈ container box →
  ∃ rt1,
    Rooted_construct addr (RootSharedPtr (SharedPtr (Some (target, box)))) rt
    = Done rt1
    ∧ (∃ rt', collections n rt1 = Some rt'
         ∧ rootAt addr (stackRoots rt')
           = Some (RootSharedPtr (SharedPtr (Some (target, box))))
         ∧ gcHeap rt' !! c = gcHeap rt !! c)
    ∧ Rooted_destruct addr rt1 = Done rt.
Proof.
  intros Hrun Hwf Hc.
  set (r := RootSharedPtr (SharedPtr (Some (target, box)))).
  exists (withStackRoots ((addr, r) :: stackRoots rt) rt).
  split_and!.
  - by apply Rooted_construct_running.
  - destruct (collections_spec n (withStackRoots ((addr, r) :: stackRoots rt) rt) Hwf)
      as (rt' & E & _ & _ & Hst & _ & Hkeep & _).
    exists rt'. split_and!; [done | |].
    + rewrite Hst. simpl. by rewrite decide_True.
    + apply (Hkeep r c).
      * left. exists addr. apply list_elem_of_here.
      * simpl. unfold boxReferents. apply elem_of_valuesReferents, elem_of_cons.
        destruct Hc as [->|Hc]; [by left | by right].
  - rewrite (Rooted_destruct_head addr r (stackRoots rt)); [|done].
    by destruct rt.
Qed.

Lemma rooted_shared_ptr_keeps_what_its_box_refers_to_witness :
  ∃ rt1,
    Rooted_construct sharedSafe
      (RootSharedPtr (SharedPtr (Some (300%N, Scenario.newBox)))) Scenario.beforeCreate
    = Done rt1
    ∧ (∃ rt', collections 3 rt1 = Some rt'
         ∧ rootAt sharedSafe (stackRoots rt')
           = Some (RootSharedPtr (SharedPtr (Some (300%N, Scenario.newBox))))
         ∧ gcHeap rt' !! 2%positive = gcHeap Scenario.beforeCreate !! 2%positive)
    ∧ Rooted_destruct sharedSafe rt1 = Done Scenario.beforeCreate.
Proof.
  apply (rooted_shared_ptr_keeps_what_its_box_refers_to
           Scenario.beforeCreate sharedSafe 300 Scenario.newBox 2 3).
  - reflexivity.
  - apply checkWellFormed_sound. vm_compute. reflexivity.
  - left. reflexivity.
Defined.

(** ** CustomObjectExample when create fails *)

Section Leak.

Lemma zealCollection_wellFormed zeal rt :
  wellFormed (gcHeap rt) (nativeHeap rt) →
  ∃ rt0, zealCollection zeal rt = Some rt0
    ∧ wellFormed (gcHeap rt0) (nativeHeap rt0)
    ∧ gcHeap rt0 ⊆ gcHeap rt
    ∧ ∀ p, unowned (gcHeap rt) p → nativeHeap rt0 !! p = nativeHeap rt !! p.
Proof.
  intros Hwf. destruct zeal; simpl.
  - destruct (JS_GC_spec rt Hwf) as (trc & rt0 & _ & Hgc & Hcol & _ & _ & Hwf0).
    exists rt0. split_and!; [done | done | |].
    + destruct Hcol as (-> & _). apply map_filter_subseteq.
    + intros p Hp. by eapply collected_unowned.
  - exists rt. split_and!; done.
Qed.

Lemma wellFormed_insert_plain h nh c slots :
  wellFormed h nh → h !! c = None →
  wellFormed (<[c := {| clasp := PlainClass; reservedSlots := slots |}]> h) nh.
Proof.
  intros Hwf Hfresh. split.
  - intros c0 obj [[-> <-]|[_ Hobj]]%lookup_insert_Some Hclasp; [done|].
    by apply (wf_slots _ _ Hwf c0).
  - intros c1 c2 obj1 obj2 p
      [[-> <-]|[_ Hobj1]]%lookup_insert_Some
      [[-> <-]|[_ Hobj2]]%lookup_insert_Some Hp1 Hp2; try done.
    by apply (wf_exclusive _ _ Hwf c1 c2 obj1 obj2 p).
  - intros c1 c2 obj1 obj2 u
      [[-> <-]|[_ Hobj1]]%lookup_insert_Some
      [[-> <-]|[_ Hobj2]]%lookup_insert_Some Hclasp Hu Hp2; try done.
    by apply (wf_borrowed _ _ Hwf c1 c2 obj1 obj2 u Hobj1 Hobj2).
Qed.

(** More live boxes do no harm. *)
Lemma wellFormed_more_boxes h (nh nh' : NativeHeap) :
  wellFormed h nh →
  (∀ q, is_Some (nh !! q) → is_Some (nh' !! q)) →
  wellFormed h nh'.
Proof.
  intros Hwf Hmore. split.
  - intros c obj Hc Hclasp.
    destruct (wf_slots _ _ Hwf c obj Hc Hclasp) as (o & u & Ho & Hu & Uo & Uu).
    exists o, u. split_and!; [done | done | |].
    + destruct Uo as [?|?]; [by left | right; by apply Hmore].
    + destruct Uu as [?|?]; [by left | right; by apply Hmore].
  - apply (wf_exclusive _ _ Hwf).
  - apply (wf_borrowed _ _ Hwf).
Qed.

Lemma unowned_insert_plain h c slots p :
  unowned h p →
  unowned (<[c := {| clasp := PlainClass; reservedSlots := slots |}]> h) p.
Proof.
  intros Hp c0 obj [[_ <-]|[_ Hobj]]%lookup_insert_Some; [done|].
  by apply (Hp c0 obj).
Qed.

Lemma CustomObject_create_fail zeal box1 box2 rt rt0 :
  phase rt = Running →
  zealCollection zeal rt = Some rt0 →
  CustomObject_create zeal false box1 box2 rt = Done (None, rt0).
Proof.
  intros Hrun Hzeal.
  destruct (zealCollection_frame _ _ _ Hzeal) as (Hph & _).
  unfold CustomObject_create.
  rewrite (JS_NewObject_zeal zeal false _ rt rt0 Hzeal). simpl.
  unfold Rooted_construct. rewrite Hph, Hrun. simpl.
  unfold Rooted_destruct, pop. simpl.
  by destruct rt0.
Qed.

End Leak.

(** X10: CustomObjectExample allocates the box with [new] before it calls
    create and returns false without deleting it when create fails, so the
    box leaks.  From a running engine that follows the ownership discipline,
    where no object owns the address the allocator hands out next: if the
    global is created and create fails, the example returns false with the
    stack registry as it found it, the new box is in the native heap, no
    object owns it, and it is still there after any number of
    collections. *)
Theorem CustomObjectExample_leaks_the_box_when_create_fails
    (ch : Choices) (rt : Runtime) (n : nat) :
  phase rt = Running →
  wellFormed (gcHeap rt) (nativeHeap rt) →
  unowned (gcHeap rt) (nextPtr rt) →
  globalOk ch = true → objectOk ch = false →
  ∃ rt', CustomObjectExample ch rt = Done (false, rt')
    ∧ stackRoots rt' = stackRoots rt
    ∧ nativeHeap rt' !! nextPtr rt = Some defaultBox
    ∧ unowned (gcHeap rt') (nextPtr rt)
    ∧ ∃ rt'', collections n rt' = Some rt''
              ∧ nativeHeap rt'' !! nextPtr rt = Some defaultBox.
Proof.
  intros Hrun Hwf Hunowned Hglobal Hobject.
  unfold CustomObjectExample, CreateGlobal. rewrite Hglobal, Hobject.
  (* the global *)
  destruct (zealCollection_wellFormed (globalZeal ch) rt Hwf)
    as (rtA & HzealA & HwfA & HsubA & HnhA).
  destruct (zealCollection_frame _ _ _ HzealA) as (HphA & HstA & _ & HnpA & _).
  rewrite (JS_NewObject_zeal _ true _ rt rtA HzealA). simpl.
  set (g := freshCell (gcHeap rtA)).
  set (plain := {| clasp := PlainClass; reservedSlots := [] |}).
  rewrite Rooted_construct_running by (simpl; congruence). simpl.
  (* the box and the static box *)
  unfold new_SafeBox, allocate. simpl.
  set (p := nextPtr rtA).
  set (rtD := withNativeHeap _ _).
  assert (HnhE : nativeHeap (staticEternalBox rtD) !! p = Some defaultBox
                 ∧ ∀ q, is_Some (nativeHeap rtA !! q) →
                        is_Some (nativeHeap (staticEternalBox rtD) !! q)).
  { unfold staticEternalBox, rtD. simpl.
    destruct (decide (eternalBox = p)) as [Heq|Hne].
    - rewrite Heq, lookup_insert_eq. simpl. rewrite lookup_insert_eq.
      split; [done|]. intros q Hq.
      destruct (decide (q = p)) as [->|?];
        [by rewrite lookup_insert_eq | by rewrite lookup_insert_ne].
    - rewrite lookup_insert_ne by done.
      destruct (nativeHeap rtA !! eternalBox) eqn:Het; simpl.
      + rewrite lookup_insert_eq. split; [done|]. intros q Hq.
        destruct (decide (q = p)) as [->|?];
          [by rewrite lookup_insert_eq | by rewrite lookup_insert_ne].
      + rewrite lookup_insert_ne, lookup_insert_eq by done.
        split; [done|]. intros q Hq.
        destruct (decide (q = eternalBox)) as [->|?];
          [by rewrite lookup_insert_eq|].
        rewrite lookup_insert_ne by done.
        destruct (decide (q = p)) as [->|?];
          [by rewrite lookup_insert_eq | by rewrite lookup_insert_ne]. }
  destruct HnhE as [Hp HmoreE].
  assert (HframeE : gcHeap (staticEternalBox rtD) = <[g := plain]> (gcHeap rtA)
                    ∧ phase (staticEternalBox rtD) = Running
                    ∧ stackRoots (staticEternalBox rtD)
                      = (globalRoot, RootObject (Some g)) :: stackRoots rtA).
  { unfold staticEternalBox, rtD.
    destruct (nativeHeap _ !! eternalBox); simpl; split_and!; congruence. }
  destruct HframeE as (HheapE & HphE & HstE).
  set (rtE := staticEternalBox rtD) in *.
  assert (HwfE : wellFormed (gcHeap rtE) (nativeHeap rtE)).
  { rewrite HheapE. apply (wellFormed_more_boxes _ (nativeHeap rtA)); [|done].
    apply wellFormed_insert_plain; [done | apply freshCell_fresh]. }
  assert (HunownedE : unowned (gcHeap rtE) p).
  { rewrite HheapE. apply unowned_insert_plain.
    eapply unowned_subseteq; [done|]. unfold p. by rewrite HnpA. }
  (* create *)
  destruct (zealCollection_wellFormed (objectZeal ch) rtE HwfE)
    as (rtF & HzealF & HwfF & HsubF & HnhF).
  destruct (zealCollection_frame _ _ _ HzealF) as (_ & HstF & _).
  rewrite (CustomObject_create_fail _ _ _ rtE rtF HphE HzealF). simpl.
  rewrite (Rooted_destruct_head globalRoot (RootObject (Some g)) (stackRoots rtA))
    by (by rewrite HstF, HstE).
  simpl.
  assert (HpF : nativeHeap rtF !! p = Some defaultBox) by (by rewrite HnhF).
  assert (HunownedF : unowned (gcHeap rtF) p) by (by eapply unowned_subseteq).
  eexists. split_and!; [reflexivity | done | | |]; simpl.
  - by rewrite <- HnpA.
  - by rewrite <- HnpA.
  - destruct (collections_spec n (withStackRoots (stackRoots rtA) rtF) HwfF)
      as (rt'' & E & _ & _ & _ & _ & _ & _ & Hun).
    exists rt''. split; [done|].
    rewrite <- HnpA. fold p. by rewrite (Hun p HunownedF).
Qed.

Lemma CustomObjectExample_leaks_the_box_when_create_fails_witness :
  ∃ rt', CustomObjectExample (mkChoices true true true true true false) Sample.runtime
         = Done (false, rt')
    ∧ stackRoots rt' = stackRoots Sample.runtime
    ∧ nativeHeap rt' !! nextPtr Sample.runtime = Some defaultBox
    ∧ unowned (gcHeap rt') (nextPtr Sample.runtime)
    ∧ ∃ rt'', collections 2 rt' = Some rt''
              ∧ nativeHeap rt'' !! nextPtr Sample.runtime = Some defaultBox.
Proof.
  apply (CustomObjectExample_leaks_the_box_when_create_fails
           (mkChoices true true true true true false) Sample.runtime 2).
  - reflexivity.
  - apply checkWellFormed_sound. vm_compute. reflexivity.
  - apply unownedb_sound. vm_compute. reflexivity.
  - reflexivity.
  - reflexivity.
Defined.

(** ** The examples that only root *)

Section RootingExamples.

Lemma CustomTypeExample_result ch rt :
  phase rt = Running →
  CustomTypeExample ch rt
  = Done (true, withNextPtr (nextPtr rt + (if heapSafeOk ch then 1 else 0)) rt).
Proof.
  intros Hrun. unfold CustomTypeExample, MakeUnique, allocate.
  rewrite Rooted_construct_running by done. simpl.
  destruct (heapSafeOk ch); simpl.
  - rewrite Rooted_construct_running by done. simpl.
    unfold Rooted_destruct, pop. simpl. by destruct rt.
  - rewrite Rooted_construct_running by done. simpl.
    unfold Rooted_destruct, pop. simpl.
    rewrite N.add_0_r. by destruct rt.
Qed.

Lemma ExistingTypeExample_result rt :
  phase rt = Running →
  ExistingTypeExample rt = Done (true, withNextPtr (nextPtr rt + 1) rt).
Proof.
  intros Hrun. unfold ExistingTypeExample, make_shared, allocate.
  rewrite Rooted_construct_running by done. simpl.
  unfold Rooted_destruct, pop. simpl. by destruct rt.
Qed.

End RootingExamples.

(** X11: CustomTypeExample and ExistingTypeExample only construct stack
    roots and let them go out of scope in reverse order.  From any running
    engine, whatever is already on the stack registry and whether or not the
    allocation of the unique pointer fails, each returns true without a
    violation and leaves the runtime as it found it apart from the addresses
    the allocator has handed out. *)
Theorem rooting_examples_leave_the_runtime_as_found (ch : Choices) (rt : Runtime) :
  phase rt = Running →
  CustomTypeExample ch rt
  = Done (true, withNextPtr (nextPtr rt + (if heapSafeOk ch then 1 else 0)) rt)
  ∧ ExistingTypeExample rt = Done (true, withNextPtr (nextPtr rt + 1) rt).
Proof.
  intros Hrun. split.
  - by apply CustomTypeExample_result.
  - by apply ExistingTypeExample_result.
Qed.

Lemma rooting_examples_leave_the_runtime_as_found_witness :
  CustomTypeExample (mkChoices false true true true true true) Sample.runtime
  = Done (true, withNextPtr (nextPtr Sample.runtime + 0) Sample.runtime)
  ∧ ExistingTypeExample Sample.runtime
    = Done (true, withNextPtr (nextPtr Sample.runtime + 1) Sample.runtime).
Proof.
  apply (rooting_examples_leave_the_runtime_as_found
           (mkChoices false true true true true true) Sample.runtime).
  reflexivity.
Defined.

(** X12: EmbeddingRootExample registers the two persistent roots of its
    EmbeddingContext when it constructs it and deregisters them, the second
    member first, when the owning pointer goes out of scope.  From a running
    engine in which the addresses of the two members are not registered, it
    returns true and the persistent root set and the stack registry are what
    they were. *)
Theorem EmbeddingRootExample_registers_and_deregisters (rt : Runtime) :
  phase rt = Running →
  persistentRoots rt !! nextPtr rt = None →
  persistentRoots rt !! (nextPtr rt + 1)%N = None →
  ∃ rt', EmbeddingRootExample rt = Done (true, rt')
    ∧ persistentRoots rt' = persistentRoots rt
    ∧ stackRoots rt' = stackRoots rt
    ∧ gcHeap rt' = gcHeap rt ∧ nativeHeap rt' = nativeHeap rt
    ∧ phase rt' = Running
    ∧ nextPtr rt' = (nextPtr rt + 2)%N
    ∧ events rt'
      = events rt ++ [Registered (nextPtr rt); Registered (nextPtr rt + 1)%N;
                      Deregistered (nextPtr rt + 1)%N; Deregistered (nextPtr rt)].
Proof.
  intros Hrun Hfree0 Hfree1.
  assert (Hne : (nextPtr rt + 1)%N ≠ nextPtr rt) by lia.
  unfold EmbeddingRootExample, allocate, PersistentRooted_init. simpl.
  rewrite Hrun. simpl. rewrite Hrun. simpl.
  unfold PersistentRooted_reset. simpl.
  rewrite lookup_insert_eq. simpl.
  rewrite lookup_delete_ne, lookup_insert_ne, lookup_insert_eq by done. simpl.
  eexists. split_and!; [reflexivity | | done.. |]; simpl.
  - rewrite delete_insert_id by (by rewrite lookup_insert_ne).
    by apply delete_insert_id.
  - by rewrite <- !app_assoc.
Qed.

Lemma EmbeddingRootExample_registers_and_deregisters_witness :
  ∃ rt', EmbeddingRootExample Sample.runtime = Done (true, rt')
    ∧ persistentRoots rt' = persistentRoots Sample.runtime
    ∧ stackRoots rt' = stackRoots Sample.runtime
    ∧ gcHeap rt' = gcHeap Sample.runtime
    ∧ nativeHeap rt' = nativeHeap Sample.runtime
    ∧ phase rt' = Running
    ∧ nextPtr rt' = (nextPtr Sample.runtime + 2)%N
    ∧ events rt'
      = events Sample.runtime
        ++ [Registered (nextPtr Sample.runtime);
            Registered (nextPtr Sample.runtime + 1)%N;
            Deregistered (nextPtr Sample.runtime + 1)%N;
            Deregistered (nextPtr Sample.runtime)].
Proof.
  apply (EmbeddingRootExample_registers_and_deregisters Sample.runtime);
    reflexivity.
Defined.

(** ** TracingExample *)

Section Tracing.

Lemma GlobalRootExample_frame ch rt :
  phase rt = Running →
  persistentRoots rt !! globalPtrSafe = None →
  persistentRoots rt !! globalMaybeSafe = None →
  ∃ rt', GlobalRootExample ch rt = Done (true, rt')
    ∧ persistentRoots rt' = persistentRoots rt
    ∧ gcHeap rt' = gcHeap rt ∧ nativeHeap rt' = nativeHeap rt
    ∧ stackRoots rt' = stackRoots rt ∧ finalized rt' = finalized rt
    ∧ phase rt' = Running
    ∧ (nextPtr rt ≤ nextPtr rt')%N.
Proof.
  intros Hrun Hfree1 Hfree2.
  unfold GlobalRootExample, MakeUnique, allocate.
  destruct (globalPtrOk ch); simpl;
    unfold Maybe_emplace, Maybe_reset, PersistentRooted_init; simpl;
    rewrite Hrun; simpl; rewrite Hrun; simpl;
    unfold PersistentRooted_reset; simpl;
    rewrite lookup_insert_eq; simpl;
    rewrite lookup_delete_ne by done;
    rewrite lookup_insert_ne by done;
    rewrite lookup_insert_eq; simpl;
    (eexists; split_and!; [reflexivity | | done.. | simpl; lia]);
    simpl;
    rewrite delete_insert_id by (by rewrite lookup_insert_ne);
    by apply delete_insert_id.
Qed.

Lemma EmbeddingRootExample_frame rt :
  phase rt = Running →
  persistentRoots rt !! nextPtr rt = None →
  persistentRoots rt !! (nextPtr rt + 1)%N = None →
  ∃ rt', EmbeddingRootExample rt = Done (true, rt')
    ∧ persistentRoots rt' = persistentRoots rt
    ∧ gcHeap rt' = gcHeap rt ∧ nativeHeap rt' = nativeHeap rt
    ∧ stackRoots rt' = stackRoots rt ∧ finalized rt' = finalized rt
    ∧ phase rt' = Running
    ∧ (nextPtr rt ≤ nextPtr rt')%N.
Proof.
  intros Hrun Hfree0 Hfree1.
  assert (Hne : (nextPtr rt + 1)%N ≠ nextPtr rt) by lia.
  unfold EmbeddingRootExample, allocate, PersistentRooted_init. simpl.
  rewrite Hrun. simpl. rewrite Hrun. simpl.
  unfold PersistentRooted_reset. simpl.
  rewrite lookup_insert_eq. simpl.
  rewrite lookup_delete_ne, lookup_insert_ne, lookup_insert_eq by done. simpl.
  eexists. split_and!; [reflexivity | | done.. | simpl; lia]; simpl.
  rewrite delete_insert_id by (by rewrite lookup_insert_ne).
  by apply delete_insert_id.
Qed.

End Tracing.

(** X13: of the five examples TracingExample runs, the first four cannot
    fail and leave nothing behind.  From a running engine with no persistent
    root registered, the outcome of TracingExample is the outcome of
    CustomObjectExample on a runtime with the same objects, boxes and stack
    roots and still no persistent root; only the allocator has moved on. *)
Theorem TracingExample_outcome_is_that_of_CustomObjectExample
    (ch : Choices) (rt : Runtime) :
  phase rt = Running →
  persistentRoots rt = ∅ →
  ∃ rt4, TracingExample ch rt = CustomObjectExample ch rt4
    ∧ gcHeap rt4 = gcHeap rt ∧ nativeHeap rt4 = nativeHeap rt
    ∧ stackRoots rt4 = stackRoots rt ∧ persistentRoots rt4 = ∅
    ∧ finalized rt4 = finalized rt
    ∧ phase rt4 = Running
    ∧ (nextPtr rt ≤ nextPtr rt4)%N.
Proof.
  intros Hrun Hnone. unfold TracingExample, andThen.
  rewrite (CustomTypeExample_result ch rt Hrun). simpl.
  set (rt1 := withNextPtr _ rt).
  rewrite (ExistingTypeExample_result rt1 Hrun). simpl.
  set (rt2 := withNextPtr _ rt1).
  destruct (GlobalRootExample_frame ch rt2) as (rt3 & E3 & Hp3 & Hh3 & Hn3 & Hs3 & Hf3 & Hr3 & Hle3).
  { done. }
  { simpl. by rewrite Hnone. }
  { simpl. by rewrite Hnone. }
  rewrite E3. simpl.
  destruct (EmbeddingRootExample_frame rt3) as (rt4 & E4 & Hp4 & Hh4 & Hn4 & Hs4 & Hf4 & Hr4 & Hle4).
  { done. }
  { rewrite Hp3. simpl. by rewrite Hnone. }
  { rewrite Hp3. simpl. by rewrite Hnone. }
  rewrite E4. simpl.
  exists rt4. split_and!; [done | | | | | | done |].
  - by rewrite Hh4, Hh3.
  - by rewrite Hn4, Hn3.
  - by rewrite Hs4, Hs3.
  - by rewrite Hp4, Hp3.
  - by rewrite Hf4, Hf3.
  - assert (nextPtr rt ≤ nextPtr rt2)%N by (unfold rt2, rt1; simpl; lia). lia.
Qed.

Lemma TracingExample_outcome_is_that_of_CustomObjectExample_witness :
  ∃ rt4, TracingExample (mkChoices true true true true true true) Sample.runtime
         = CustomObjectExample (mkChoices true true true true true true) rt4
    ∧ gcHeap rt4 = gcHeap Sample.runtime
    ∧ nativeHeap rt4 = nativeHeap Sample.runtime
    ∧ stackRoots rt4 = stackRoots Sample.runtime
    ∧ persistentRoots rt4 = ∅
    ∧ finalized rt4 = finalized Sample.runtime
    ∧ phase rt4 = Running
    ∧ (nextPtr Sample.runtime ≤ nextPtr rt4)%N.
Proof.
  apply (TracingExample_outcome_is_that_of_CustomObjectExample
           (mkChoices true true true true true true) Sample.runtime);
    reflexivity.
Defined.

(** ** The whole program *)

